(** * RoomGraph: half-edge construction and face extraction

    A shallow embedding of [Geometry.h], [RoomGraph.h] and [RoomGraph.cpp].

    - [double] is IEEE-754 binary64, taken from the axiom-free
      specification of floating-point numbers ([SpecFloat]).
    - [int] values are integers in [Z]. The [int]s the program computes
      are vector sizes and indices, the sentinel [-1] and grid coordinates.
      Vector sizes stay far below 2^31 in a 32-bit address space, so
      [id + 1] and [pos - 1 + n] do not wrap; the cast that produces a grid
      coordinate is written out in [floor_to_int].
    - [std::vector] is a list; [v[i]] on an index outside the vector is
      undefined in C++ and is the outcome [Stuck] here.
    - [std::map<GridKey,int>] is a finite map on pairs of integers.
    - [std::atan2] and [std::sort] are library code; they are parameters
      of the development (section [Graph]).
    - The [while (true)] loop of [walkCycles] runs on fuel; the outcome
      [OutOfFuel] is shown never to occur. *)

From Stdlib Require Import ZArith Lia Bool Floats.SpecFloat.
From stdpp Require Import base option list gmap.

Open Scope Z_scope.

(** ** Doubles *)

Module Double.

Definition prec : Z := 53.
Definition emax : Z := 1024.

Definition double := spec_float.

Definition add : double -> double -> double := SFadd prec emax.
Definition sub : double -> double -> double := SFsub prec emax.
Definition mul : double -> double -> double := SFmul prec emax.
Definition div : double -> double -> double := SFdiv prec emax.
Definition fabs : double -> double := SFabs.
Definition ltb : double -> double -> bool := SFltb.
Definition leb : double -> double -> bool := SFleb.

(** The double nearest to an integer. *)
Definition of_Z (z : Z) : double := binary_normalize prec emax z 0 false.

(** A decimal literal [n / d] (for instance [1e-3] is [1 / 1000]): the
    compiler rounds the literal to the nearest double, as a correctly
    rounded division of two exactly representable integers does. *)
Definition dec (n d : Z) : double := div (of_Z n) (of_Z d).

Definition zero : double := S754_zero false.

(** The literals of the program: [0.5], [1.0], [6.0], [1e-3], [1e-6]. *)
Definition half : double := Eval vm_compute in dec 1 2.
Definition one : double := Eval vm_compute in of_Z 1.
Definition six : double := Eval vm_compute in of_Z 6.
Definition milli : double := Eval vm_compute in dec 1 1000.
Definition micro : double := Eval vm_compute in dec 1 1000000.
Definition is_nan (f : double) : bool :=
  match f with S754_nan => true | _ => false end.

(** [std::floor] as an exact integer; [None] on infinities and NaN. *)
Definition floor (f : double) : option Z :=
  match f with
  | S754_zero _ => Some 0
  | S754_finite s m e =>
      let v := cond_Zopp s (Zpos m) in
      Some (if 0 <=? e then Z.shiftl v e else Z.shiftr v (- e))
  | S754_infinity _ => None
  | S754_nan => None
  end.

Definition INT_MIN : Z := -2147483648.
Definition INT_MAX : Z := 2147483647.

(** [static_cast<int>(std::floor(v))]. The floor of a double is an
    integer-valued double, so the cast is exact when the value fits an
    [int]. Outside that range (and on infinities and NaN) the cast is
    undefined in C++; the x86 conversion instructions return [INT_MIN]
    there, which is what is written out here. *)
Definition floor_to_int (f : double) : Z :=
  match floor f with
  | Some z => if (INT_MIN <=? z) && (z <=? INT_MAX) then z else INT_MIN
  | None => INT_MIN
  end.

End Double.

Import Double.

Declare Scope double_scope.
Delimit Scope double_scope with D.
Notation "a + b" := (add a b) : double_scope.
Notation "a - b" := (sub a b) : double_scope.
Notation "a * b" := (mul a b) : double_scope.
Notation "a / b" := (div a b) : double_scope.

(** ** Outcomes

    [Stuck] is an access outside a vector (undefined behaviour in C++);
    [OutOfFuel] is the model's bound on loop iterations being reached. *)

Inductive outcome (A : Type) : Type :=
| Returned (a : A)
| Stuck
| OutOfFuel.
Arguments Returned {A} a.
Arguments Stuck {A}.
Arguments OutOfFuel {A}.

#[global] Instance outcome_bind : MBind outcome := fun A B f m =>
  match m with
  | Returned a => f a
  | Stuck => Stuck
  | OutOfFuel => OutOfFuel
  end.
#[global] Instance outcome_ret : MRet outcome := fun A a => Returned a.

(** ** Vectors indexed by [int] *)

Definition vec_at {A} (v : list A) (i : Z) : option A :=
  if i <? 0 then None else v !! Z.to_nat i.

Definition vec_get {A} (v : list A) (i : Z) : outcome A :=
  match vec_at v i with
  | Some a => Returned a
  | None => Stuck
  end.

Definition vec_alter {A} (f : A -> A) (i : Z) (v : list A) : list A :=
  if i <? 0 then v else alter f (Z.to_nat i) v.

Definition vec_size {A} (v : list A) : Z := Z.of_nat (length v).

(** ** Data model ([Geometry.h], [RoomGraph.h]) *)

Record Vec2 := mkVec2 { vx : double; vy : double }.

Record Segment := mkSegment { seg_a : Vec2; seg_b : Vec2 }.

Record Room := mkRoom {
  polygon : list Vec2;
  center : Vec2;
  area : double
}.

Record Node := mkNode {
  node_id : Z;
  pos : Vec2;
  outgoingEdges : list Z
}.

Record HalfEdge := mkHalfEdge {
  he_id : Z;
  he_from : Z;
  he_to : Z;
  he_twin : Z;
  he_next : Z;
  he_used : bool;
  he_angle : double
}.

Abbreviation GridKey := (Z * Z)%type.

Record RoomGraph := mkRoomGraph {
  m_nodes : list Node;
  m_edges : list HalfEdge;
  m_rooms : list Room;
  m_nodeIndex : gmap (Z * Z) Z;
  m_snapSize : double
}.

(** The constructor: empty containers, snap grid [1e-3]. *)
Definition newRoomGraph : RoomGraph :=
  mkRoomGraph [] [] [] ∅ milli.

Definition clear (g : RoomGraph) : RoomGraph :=
  mkRoomGraph [] [] [] ∅ (m_snapSize g).

Definition getRooms (g : RoomGraph) : list Room := m_rooms g.

(** ** Node registry *)

Definition snapKey (snap : double) (p : Vec2) : GridKey :=
  (floor_to_int (vx p / snap + half)%D,
   floor_to_int (vy p / snap + half)%D).

Definition findOrCreateNode (p : Vec2) (g : RoomGraph) : Z * RoomGraph :=
  let key := snapKey (m_snapSize g) p in
  match m_nodeIndex g !! key with
  | Some v => (v, g)
  | None =>
      let nid := vec_size (m_nodes g) in
      let node := mkNode nid p [] in
      (nid, mkRoomGraph (m_nodes g ++ [node]) (m_edges g) (m_rooms g)
              (<[key := nid]> (m_nodeIndex g)) (m_snapSize g))
  end.

(** ** Signed area and centroid *)

Definition vec2_zero : Vec2 := mkVec2 zero zero.

(** [poly[i]] for an index the loop bounds keep inside the vector. *)
Definition poly_at (poly : list Vec2) (i : nat) : Vec2 :=
  nth i poly vec2_zero.

Definition cross (p q : Vec2) : double :=
  (vx p * vy q - vx q * vy p)%D.

Definition computeSignedArea (poly : list Vec2) : double :=
  let n := length poly in
  if (n <? 3)%nat then zero
  else
    let area :=
      fold_left (fun area i =>
                   let p := poly_at poly i in
                   let q := poly_at poly (S i mod n) in
                   (area + cross p q)%D)
                (seq 0 n) zero in
    (half * area)%D.

Definition computeCentroid (poly : list Vec2) (signedArea : double) : Vec2 :=
  let n := length poly in
  if (n <? 3)%nat then vec2_zero
  else
    let factor := (one / (six * signedArea))%D in
    let '(cx, cy) :=
      fold_left (fun '(cx, cy) i =>
                   let p := poly_at poly i in
                   let q := poly_at poly (S i mod n) in
                   let c := cross p q in
                   ((cx + (vx p + vx q) * c)%D, (cy + (vy p + vy q) * c)%D))
                (seq 0 n) (zero, zero) in
    mkVec2 (cx * factor)%D (cy * factor)%D.

(** ** Cycle walker: rooms *)

(** The area tolerance [1e-6]. *)
Definition areaTolerance : double := micro.

(** The tail of the body of the outer loop of [walkCycles]: the filters a
    recorded polygon goes through, and the [Room] that is pushed when it
    passes them all. *)
Definition roomOf (poly : list Vec2) : option Room :=
  if (length poly <? 3)%nat then None
  else
    let signedArea := computeSignedArea poly in
    if ltb (fabs signedArea) areaTolerance then None
    else if leb signedArea zero then None
    else Some (mkRoom poly (computeCentroid poly signedArea) (fabs signedArea)).

(** How the inner [while (true)] loop was left (ghost information, the
    program does not record it):
    - [ExitClosed]: [e.next == start.id];
    - [ExitDeadEnd]: [e.next < 0];
    - [ExitRevisit]: the current edge was already used;
    - [ExitBadFrom]: [e.from] is not a node index. *)
Inductive WalkExit := ExitClosed | ExitDeadEnd | ExitRevisit | ExitBadFrom.

#[global] Instance WalkExit_eq_dec : EqDecision WalkExit.
Proof. solve_decision. Defined.

(** Ghost record of one walk of the outer loop: the index it started at,
    how it ended, how many times the body of the inner loop was entered,
    the recorded polygon and the room pushed for it, if any. *)
Record Walk := mkWalk {
  w_start : Z;
  w_exit : WalkExit;
  w_iters : nat;
  w_poly : list Vec2;
  w_room : option Room
}.

Definition set_used (e : HalfEdge) : HalfEdge :=
  mkHalfEdge (he_id e) (he_from e) (he_to e) (he_twin e) (he_next e) true
    (he_angle e).

Definition set_next (f : Z) (e : HalfEdge) : HalfEdge :=
  mkHalfEdge (he_id e) (he_from e) (he_to e) (he_twin e) f (he_used e)
    (he_angle e).

(** The inner [while (true)] loop of [walkCycles]. [iters] counts the
    entries into the loop body. *)
Fixpoint walkLoop (fuel : nat) (nodes : list Node) (startId : Z)
    (edges : list HalfEdge) (currentId : Z) (poly : list Vec2) (iters : nat)
  : outcome (list HalfEdge * list Vec2 * WalkExit * nat) :=
  match fuel with
  | O => OutOfFuel
  | S fuel' =>
      e ← vec_get edges currentId;
      if he_used e then Returned (edges, poly, ExitRevisit, S iters)
      else
        let edges' := vec_alter set_used currentId edges in
        let fromNode := he_from e in
        if (fromNode <? 0) || (fromNode >=? vec_size nodes)
        then Returned (edges', poly, ExitBadFrom, S iters)
        else
          node ← vec_get nodes fromNode;
          let poly' := poly ++ [pos node] in
          if he_next e <? 0
          then Returned (edges', poly', ExitDeadEnd, S iters)
          else if he_next e =? startId
          then Returned (edges', poly', ExitClosed, S iters)
          else walkLoop fuel' nodes startId edges' (he_next e) poly' (S iters)
  end.

Definition with_walk (g : RoomGraph) (edges : list HalfEdge)
    (r : option Room) : RoomGraph :=
  mkRoomGraph (m_nodes g) edges (m_rooms g ++ option_list r)
    (m_nodeIndex g) (m_snapSize g).

(** The outer [for] loop of [walkCycles] over the indices [idxs], each inner
    loop running on [fuel]. *)
Fixpoint walkFrom (fuel : nat) (idxs : list nat) (g : RoomGraph)
    (trace : list Walk) : outcome (RoomGraph * list Walk) :=
  match idxs with
  | [] => Returned (g, trace)
  | i :: rest =>
      start ← vec_get (m_edges g) (Z.of_nat i);
      if he_used start then walkFrom fuel rest g trace
      else
        r ← walkLoop fuel (m_nodes g) (he_id start) (m_edges g)
              (he_id start) [] 0;
        let '(edges', poly, ex, n) := r in
        let room := roomOf poly in
        walkFrom fuel rest (with_walk g edges' room)
          (trace ++ [mkWalk (Z.of_nat i) ex n poly room])
  end.

Definition walkCycles_trace (fuel : nat) (g : RoomGraph)
  : outcome (RoomGraph * list Walk) :=
  walkFrom fuel (seq 0 (length (m_edges g))) g [].

(** [walkCycles]. An inner loop marks an unused edge on every pass but
    possibly its last, so [S (length (m_edges g))] passes are as good as
    unboundedly many ([walkCycles_never_out_of_fuel] and
    [walkFrom_fuel_mono] below). *)
Definition walkCycles (g : RoomGraph) : outcome RoomGraph :=
  r ← walkCycles_trace (S (length (m_edges g))) g; Returned (fst r).

(** ** Face-walk relation *)

(** The search loop of [buildNextRelations]: the first [k] with
    [out[k] == twinId], counted from [k0]; [-1] when there is none. *)
Fixpoint find_pos (twinId : Z) (out : list Z) (k0 : Z) : Z :=
  match out with
  | [] => -1
  | o :: rest => if o =? twinId then k0 else find_pos twinId rest (k0 + 1)
  end.

(** The body of the loop of [buildNextRelations] for the edge [e]. *)
Definition nextRelation (nodes : list Node) (e : HalfEdge) : HalfEdge :=
  let toNode := he_to e in
  if (toNode <? 0) || (toNode >=? vec_size nodes) then e
  else
    match vec_at nodes toNode with
    | None => e
    | Some node =>
        let out := outgoingEdges node in
        match out with
        | [] => e
        | _ =>
            let p := find_pos (he_twin e) out 0 in
            if p <? 0 then e
            else
              let n := vec_size out in
              let nextPos := Z.rem (p - 1 + n) n in
              match vec_at out nextPos with
              | Some f => set_next f e
              | None => e
              end
        end
    end.

Definition buildNextRelations (g : RoomGraph) : RoomGraph :=
  mkRoomGraph (m_nodes g) (nextRelation (m_nodes g) <$> m_edges g)
    (m_rooms g) (m_nodeIndex g) (m_snapSize g).

Section Graph.

(** [std::atan2 dy dx]. *)
Variable atan2 : double -> double -> double.

(** [std::sort first last cmp] on a vector of edge ids. *)
Variable sort : (Z -> Z -> bool) -> list Z -> list Z.

(** ** Half-edge builder *)

Definition push_out (eid : Z) (n : Node) : Node :=
  mkNode (node_id n) (pos n) (outgoingEdges n ++ [eid]).

(** The body of the loop of [buildNodesAndEdges] for the segment [s]. *)
Definition addSegment (s : Segment) (g : RoomGraph) : outcome RoomGraph :=
  let '(a, g1) := findOrCreateNode (seg_a s) g in
  let '(b, g2) := findOrCreateNode (seg_b s) g1 in
  if a =? b then Returned g2
  else
    let id1 := vec_size (m_edges g2) in
    let id2 := id1 + 1 in
    na ← vec_get (m_nodes g2) a;
    nb ← vec_get (m_nodes g2) b;
    let pa := pos na in
    let pb := pos nb in
    let e1 := mkHalfEdge id1 a b id2 (-1) false
                (atan2 (vy pb - vy pa)%D (vx pb - vx pa)%D) in
    let e2 := mkHalfEdge id2 b a id1 (-1) false
                (atan2 (vy pa - vy pb)%D (vx pa - vx pb)%D) in
    let nodes1 := vec_alter (push_out id1) a (m_nodes g2) in
    let nodes2 := vec_alter (push_out id2) b nodes1 in
    Returned (mkRoomGraph nodes2 (m_edges g2 ++ [e1; e2]) (m_rooms g2)
                (m_nodeIndex g2) (m_snapSize g2)).

Fixpoint buildNodesAndEdges (segments : list Segment) (g : RoomGraph)
  : outcome RoomGraph :=
  match segments with
  | [] => Returned g
  | s :: rest => g' ← addSegment s g; buildNodesAndEdges rest g'
  end.

(** ** Angular sorter *)

(** [EdgeAngleLess::operator()]. It is only ever called on ids stored in
    an outgoing list; on an id outside the edge array (undefined in C++)
    the comparison is [false] here. *)
Definition EdgeAngleLess (edges : list HalfEdge) (e1 e2 : Z) : bool :=
  match vec_at edges e1, vec_at edges e2 with
  | Some a, Some b => ltb (he_angle a) (he_angle b)
  | _, _ => false
  end.

Definition sortOutgoing (edges : list HalfEdge) (n : Node) : Node :=
  if (length (outgoingEdges n) <=? 1)%nat then n
  else mkNode (node_id n) (pos n)
         (sort (EdgeAngleLess edges) (outgoingEdges n)).

Definition sortOutgoingByAngle (g : RoomGraph) : RoomGraph :=
  mkRoomGraph (sortOutgoing (m_edges g) <$> m_nodes g) (m_edges g)
    (m_rooms g) (m_nodeIndex g) (m_snapSize g).

(** ** build *)

(** The graph before the cycle walk: steps 1 to 3 of [build]. *)
Definition buildGraph (segments : list Segment) (g : RoomGraph)
  : outcome RoomGraph :=
  g1 ← buildNodesAndEdges segments (clear g);
  Returned (buildNextRelations (sortOutgoingByAngle g1)).

Definition build (segments : list Segment) (g : RoomGraph)
  : outcome RoomGraph :=
  match segments with
  | [] => Returned (clear g)
  | _ => g3 ← buildGraph segments g; walkCycles g3
  end.

(** [build] with the ghost record of the walks. *)
Definition build_trace (segments : list Segment) (g : RoomGraph)
  : outcome (RoomGraph * list Walk) :=
  match segments with
  | [] => Returned (clear g, [])
  | _ =>
      g3 ← buildGraph segments g;
      walkCycles_trace (S (length (m_edges g3))) g3
  end.

End Graph.

(** ** Instances of the library parameters, for closed examples *)

(** Insertion sort, one admissible [std::sort]. *)
Fixpoint insert_sorted (cmp : Z -> Z -> bool) (x : Z) (l : list Z) : list Z :=
  match l with
  | [] => [x]
  | y :: l' => if cmp y x then y :: insert_sorted cmp x l' else x :: l
  end.

Definition insertion_sort (cmp : Z -> Z -> bool) (l : list Z) : list Z :=
  foldr (insert_sorted cmp) [] l.

(** The doubles nearest to pi/4 and its multiples. *)
Definition quarter_pi : double := S754_finite false 7074237752028440 (-53).
Definition half_pi : double := S754_finite false 7074237752028440 (-52).
Definition three_quarter_pi : double := S754_finite false 5305678314021330 (-51).
Definition pi : double := S754_finite false 7074237752028440 (-51).

(** A stand-in for [std::atan2] on closed examples. It follows Annex F of
    the C standard on NaN, on zeros of either sign and on infinities, and
    gives the correctly rounded angle on the four axis directions and on
    the four diagonals. For any other direction it returns the diagonal of
    the quadrant, which is not the value of [std::atan2]: the examples that
    use it have axis-parallel segments only. *)
Definition sign_bit (f : double) : bool :=
  match f with
  | S754_zero s | S754_infinity s | S754_finite s _ _ => s
  | S754_nan => false
  end.

Definition is_zero (f : double) : bool :=
  match f with S754_zero _ => true | _ => false end.

Definition is_infinite (f : double) : bool :=
  match f with S754_infinity _ => true | _ => false end.

Definition with_sign_of (dy a : double) : double :=
  if sign_bit dy then SFopp a else a.

Definition atan2_axis (dy dx : double) : double :=
  if is_nan dy || is_nan dx then S754_nan
  else if is_zero dy || (is_infinite dx && negb (is_infinite dy))
  then with_sign_of dy (if sign_bit dx then pi else zero)
  else if is_zero dx || (is_infinite dy && negb (is_infinite dx))
  then with_sign_of dy half_pi
  else with_sign_of dy (if sign_bit dx then three_quarter_pi else quarter_pi).

(** ** Invariants of the built graph *)

(** Edges are pushed two at a time, so the twin of the edge at an even index
    is the next one, and the twin of the edge at an odd index the one
    before. *)
Definition pair_twin (i : Z) : Z := if Z.even i then i + 1 else i - 1.

(** The node registry: every registered id is a node index, and no two keys
    share a node. *)
Record registry_wf (g : RoomGraph) : Prop := {
  reg_range : forall k v,
    m_nodeIndex g !! k = Some v -> 0 <= v < vec_size (m_nodes g);
  reg_inj : forall k1 k2 v,
    m_nodeIndex g !! k1 = Some v -> m_nodeIndex g !! k2 = Some v -> k1 = k2
}.

(** The half-edge arrays: ids are indices, twins are paired, endpoints are
    distinct nodes, and the outgoing list of a node holds, once each, the
    ids of the edges that leave it. *)
Record edges_wf (nodes : list Node) (edges : list HalfEdge) : Prop := {
  ewf_even : Z.even (vec_size edges) = true;
  ewf_edge : forall i e,
    vec_at edges i = Some e ->
    he_id e = i /\ he_twin e = pair_twin i /\
    0 <= he_from e < vec_size nodes /\ 0 <= he_to e < vec_size nodes /\
    he_from e <> he_to e;
  ewf_twin : forall i e t,
    vec_at edges i = Some e -> vec_at edges (pair_twin i) = Some t ->
    he_from t = he_to e /\ he_to t = he_from e;
  ewf_out : forall v n f,
    vec_at nodes v = Some n ->
    f ∈ outgoingEdges n <-> exists e, vec_at edges f = Some e /\ he_from e = v;
  ewf_nodup : forall v n,
    vec_at nodes v = Some n -> NoDup (outgoingEdges n)
}.

(** Edges as the builder leaves them: [next] unset, not used. *)
Definition fresh_edges (edges : list HalfEdge) : Prop :=
  Forall (fun e => he_next e = -1 /\ he_used e = false) edges.

(** The number of entries of all outgoing lists. *)
Definition total_out (nodes : list Node) : nat :=
  sum_list_with (fun n => length (outgoingEdges n)) nodes.

(** A segment is accepted when its endpoints have different snap keys. *)
Definition accepted (snap : double) (s : Segment) : bool :=
  bool_decide (snapKey snap (seg_a s) <> snapKey snap (seg_b s)).

(** The node a point resolves to in the registry of [g]. *)
Definition resolve (g : RoomGraph) (p : Vec2) : Z :=
  fst (findOrCreateNode p g).

(** What [buildNodesAndEdges] maintains from one segment to the next. *)
Record builder_inv (g : RoomGraph) : Prop := {
  bi_reg : registry_wf g;
  bi_edges : edges_wf (m_nodes g) (m_edges g);
  bi_fresh : fresh_edges (m_edges g);
  bi_total : total_out (m_nodes g) = length (m_edges g)
}.

(** What the cycle walker relies on: ids are indices, [from] is a node,
    [next] is an edge other than the edge itself, and no two edges share
    their [next]. *)
Record links_wf (nodes : list Node) (edges : list HalfEdge) : Prop := {
  lw_edge : forall i e,
    vec_at edges i = Some e ->
    he_id e = i /\ 0 <= he_from e < vec_size nodes /\
    0 <= he_next e < vec_size edges /\ he_next e <> i;
  lw_inj : forall i j ei ej,
    vec_at edges i = Some ei -> vec_at edges j = Some ej ->
    he_next ei = he_next ej -> i = j
}.

(** ** Ghost notions for the cycle walker *)

(** An edge with its [used] flag reset: what the walker does not touch. *)
Definition unmark (e : HalfEdge) : HalfEdge :=
  mkHalfEdge (he_id e) (he_from e) (he_to e) (he_twin e) (he_next e) false
    (he_angle e).

(** The number of half-edges not yet marked. *)
Definition unused_count (edges : list HalfEdge) : nat :=
  length (filter (fun e => he_used e = false) edges).

Definition used_at (edges : list HalfEdge) (j : Z) : Prop :=
  exists e, vec_at edges j = Some e /\ he_used e = true.

(** Between two walks, the marked edges are closed under predecessors: an
    edge whose [next] is marked is marked. *)
Definition closed_under_pred (edges : list HalfEdge) : Prop :=
  forall i e,
    vec_at edges i = Some e -> used_at edges (he_next e) -> he_used e = true.

(** The entries into the inner loop body over all walks. *)
Definition total_iters (walks : list Walk) : nat :=
  sum_list_with w_iters walks.

(** ** Sample inputs *)

(** The node ids two points resolve to, one after the other. *)
Definition resolve_both (g : RoomGraph) (p q : Vec2) : Z * Z :=
  let '(a, g1) := findOrCreateNode p g in
  let '(b, _) := findOrCreateNode q g1 in
  (a, b).

Definition pt (a b : Z) : Vec2 := mkVec2 (of_Z a) (of_Z b).

(** The point [(n/d, n/d)] written as a decimal literal. *)
Definition pt_dec (n d : Z) : Vec2 := mkVec2 (dec n d) (dec n d).

(** A 10 x 10 axis-aligned square: four segments, closed. *)
Definition square : list Segment :=
  [mkSegment (pt 0 0) (pt 10 0); mkSegment (pt 10 0) (pt 10 10);
   mkSegment (pt 10 10) (pt 0 10); mkSegment (pt 0 10) (pt 0 0)].

(** A rectangle of width [1024 * 1e-6] and height [1 / 1024]: both are
    doubles, their product is the double [1e-6] with no rounding. *)
Definition thin_w : double := (of_Z 1024 * areaTolerance)%D.
Definition thin_h : double := dec 1 1024.
Definition thin_rectangle : list Segment :=
  [mkSegment (mkVec2 zero zero) (mkVec2 thin_w zero);
   mkSegment (mkVec2 thin_w zero) (mkVec2 thin_w thin_h);
   mkSegment (mkVec2 thin_w thin_h) (mkVec2 zero thin_h);
   mkSegment (mkVec2 zero thin_h) (mkVec2 zero zero)].

(** A square of side 4/1024 far from the origin, with lower-left corner
    [(2^20 + 3/1024, 2^20 + 39/1024)]: every coordinate is a double, and
    the products of the shoelace sum are not. *)
Definition far_pt (a b : Z) : Vec2 :=
  mkVec2 (dec (2 ^ 30 + a) 1024) (dec (2 ^ 30 + b) 1024).

Definition far_square : list Segment :=
  [mkSegment (far_pt 3 39) (far_pt 7 39); mkSegment (far_pt 7 39) (far_pt 7 43);
   mkSegment (far_pt 7 43) (far_pt 3 43); mkSegment (far_pt 3 43) (far_pt 3 39)].

(** The exact value of a finite double times [2^k], when that is an
    integer. *)
Definition scaled (k : Z) (f : double) : option Z :=
  match f with
  | S754_zero _ => Some 0
  | S754_finite s m e =>
      let v := cond_Zopp s (Zpos m) in
      if 0 <=? e + k then Some (v * 2 ^ (e + k))
      else if v mod 2 ^ (- (e + k)) =? 0 then Some (v / 2 ^ (- (e + k)))
      else None
  | _ => None
  end.

Definition scaled_pt (k : Z) (p : Vec2) : option (Z * Z) :=
  x ← scaled k (vx p); y ← scaled k (vy p); Some (x, y).

(** Twice the signed area of a polygon with integer vertices, with no
    rounding: negative for a clockwise polygon. *)
Fixpoint shoelace_sum (first : Z * Z) (poly : list (Z * Z)) : Z :=
  match poly with
  | [] => 0
  | [p] => p.1 * first.2 - first.1 * p.2
  | p :: (q :: _) as rest => p.1 * q.2 - q.1 * p.2 + shoelace_sum first rest
  end.

Definition exact_twice_area (poly : list (Z * Z)) : Z :=
  match poly with
  | [] => 0
  | first :: _ => shoelace_sum first poly
  end.

(** The square after steps 1 and 2 of [build] (nodes, half-edges, sorted
    outgoing lists), with the sample instances of the library functions. *)
Definition squareSorted : RoomGraph :=
  match buildNodesAndEdges atan2_axis square newRoomGraph with
  | Returned g1 => sortOutgoingByAngle insertion_sort g1
  | _ => newRoomGraph
  end.


(** ** Geometry: distance ([Geometry.h]) *)

Definition dsqrt : double -> double := SFsqrt prec emax.

Definition distance (p q : Vec2) : double :=
  let dx := (vx p - vx q)%D in
  let dy := (vy p - vy q)%D in
  dsqrt (dx * dx + dy * dy)%D.

(** [almostEqual p q eps]; the default [eps] is [1e-6]. *)
Definition almostEqual (p q : Vec2) (eps : double) : bool :=
  leb (distance p q) eps.

(** Neither an infinity nor NaN. *)
Definition is_finite (f : double) : bool :=
  match f with
  | S754_zero _ | S754_finite _ _ _ => true
  | _ => false
  end.

(** ** More invariants of the half-edge builder *)

(** The endpoints of a list of segments, in order. *)
Definition endpoints (segs : list Segment) : list Vec2 :=
  segs ≫= (fun s => [seg_a s; seg_b s]).

Definition edge_ends (e : HalfEdge) : Z * Z := (he_from e, he_to e).

(** The ends of the two half-edges of an accepted segment, read off the
    registry of [g]. *)
Definition segment_edges (g : RoomGraph) (s : Segment) : list (Z * Z) :=
  [(resolve g (seg_a s), resolve g (seg_b s));
   (resolve g (seg_b s), resolve g (seg_a s))].

(** What is fixed of a node when it is created. *)
Definition node_core (n : Node) : Z * Vec2 := (node_id n, pos n).

(** Nodes and registry, given the points [pts] resolved so far: a node sits
    at the index that is its id, is registered under the snap key of its
    position, and its position is one of the points; every point is
    registered; there are as many nodes as keys. *)
Record nodes_wf (pts : list Vec2) (g : RoomGraph) : Prop := {
  nwf_node : forall v n,
    vec_at (m_nodes g) v = Some n ->
    node_id n = v /\
    m_nodeIndex g !! snapKey (m_snapSize g) (pos n) = Some v /\
    pos n ∈ pts;
  nwf_reg : forall p,
    p ∈ pts -> is_Some (m_nodeIndex g !! snapKey (m_snapSize g) p);
  nwf_size : size (m_nodeIndex g) = length (m_nodes g)
}.

(** The direction angle of the edge [e] of [g], as the builder computes
    it from the positions of the two end nodes. *)
Definition angle_of (atan2 : double -> double -> double) (g : RoomGraph)
    (e : HalfEdge) : option double :=
  na ← vec_at (m_nodes g) (he_from e);
  nb ← vec_at (m_nodes g) (he_to e);
  Some (atan2 (vy (pos nb) - vy (pos na))%D (vx (pos nb) - vx (pos na))%D).

(** Half-edges, given the segments [done] processed so far: the edges are,
    in order, the two directions of each accepted segment, and each holds
    the angle of its direction. *)
Record edges_follow (atan2 : double -> double -> double)
    (done : list Segment) (g : RoomGraph) : Prop := {
  ef_ends :
    edge_ends <$> m_edges g
    = filter (fun s => accepted (m_snapSize g) s = true) done
        ≫= segment_edges g;
  ef_angle : forall i e,
    vec_at (m_edges g) i = Some e -> angle_of atan2 g e = Some (he_angle e)
}.

(** What the later steps of [build] leave of a half-edge as the builder
    made it. *)
Definition edge_core (e : HalfEdge) : Z * Z * Z * Z * double :=
  (he_id e, he_from e, he_to e, he_twin e, he_angle e).

(** * Properties *)

(** ** Vectors *)

Section VecLemmas.
Context {A : Type}.
Implicit Types (v w : list A) (i j : Z) (a : A).

Lemma vec_at_Some v i a :
  vec_at v i = Some a <-> 0 <= i /\ v !! Z.to_nat i = Some a.
Proof.
  unfold vec_at. destruct (Z.ltb_spec i 0); split; intros H1;
    try easy; try tauto; lia.
Qed.

Lemma vec_at_range v i a : vec_at v i = Some a -> 0 <= i < vec_size v.
Proof.
  intros [H0 H1]%vec_at_Some. apply lookup_lt_Some in H1.
  unfold vec_size. lia.
Qed.

Lemma vec_at_None v i : vec_at v i = None <-> i < 0 \/ vec_size v <= i.
Proof.
  unfold vec_at, vec_size. destruct (Z.ltb_spec i 0).
  - split; [intros _; lia | easy].
  - rewrite lookup_ge_None. lia.
Qed.

Lemma vec_at_is_Some v i : 0 <= i < vec_size v -> exists a, vec_at v i = Some a.
Proof.
  intros H. destruct (vec_at v i) as [a|] eqn:E; [eauto|].
  apply vec_at_None in E. lia.
Qed.

Lemma vec_at_of_nat v (n : nat) : vec_at v (Z.of_nat n) = v !! n.
Proof.
  unfold vec_at. destruct (Z.ltb_spec (Z.of_nat n) 0); [lia|].
  now rewrite Nat2Z.id.
Qed.

Lemma vec_size_app v w : vec_size (v ++ w) = vec_size v + vec_size w.
Proof. unfold vec_size. rewrite length_app. lia. Qed.

Lemma vec_at_app v w i :
  vec_at (v ++ w) i =
  if i <? vec_size v then vec_at v i else vec_at w (i - vec_size v).
Proof.
  unfold vec_at, vec_size.
  destruct (Z.ltb_spec i 0) as [Hneg|Hpos].
  - destruct (Z.ltb_spec i (Z.of_nat (length v))); [easy|lia].
  - destruct (Z.ltb_spec i (Z.of_nat (length v))) as [Hl|Hr].
    + apply lookup_app_l. lia.
    + destruct (Z.ltb_spec (i - Z.of_nat (length v)) 0); [lia|].
      rewrite lookup_app_r by lia. f_equal. lia.
Qed.

Lemma vec_size_alter (f : A -> A) i v : vec_size (vec_alter f i v) = vec_size v.
Proof.
  unfold vec_alter, vec_size. destruct (i <? 0); [easy|].
  now rewrite length_alter.
Qed.

Lemma vec_at_alter (f : A -> A) i j v :
  vec_at (vec_alter f i v) j =
  if decide (i = j) then f <$> vec_at v j else vec_at v j.
Proof.
  unfold vec_alter, vec_at.
  destruct (Z.ltb_spec i 0) as [Hi|Hi], (Z.ltb_spec j 0) as [Hj|Hj];
    destruct (decide (i = j)) as [->|Hne]; try easy; try lia.
  - apply list_lookup_alter_eq.
  - apply list_lookup_alter_ne. lia.
Qed.

Lemma vec_at_alter_eq (f : A -> A) i v a :
  vec_at v i = Some a -> vec_at (vec_alter f i v) i = Some (f a).
Proof. intros H. rewrite vec_at_alter, decide_True by easy. now rewrite H. Qed.

Lemma vec_at_alter_ne (f : A -> A) i j v :
  i <> j -> vec_at (vec_alter f i v) j = vec_at v j.
Proof. intros H. now rewrite vec_at_alter, decide_False. Qed.

End VecLemmas.

(** ** The node registry *)

Lemma edges_wf_grow nodes extra edges :
  Forall (fun n => outgoingEdges n = []) extra ->
  edges_wf nodes edges -> edges_wf (nodes ++ extra) edges.
Proof.
  intros Hex [Hev Hed Htw Hout Hnd]. split; auto.
  - intros i e Hi. destruct (Hed i e Hi) as (?&?&?&?&?).
    rewrite vec_size_app. pose proof (Zle_0_nat (length extra)).
    unfold vec_size at 2 4. repeat split; auto; lia.
  - intros v n f Hv. rewrite vec_at_app in Hv.
    destruct (Z.ltb_spec v (vec_size nodes)) as [Hlt|Hge]; [now apply Hout|].
    apply vec_at_Some in Hv as [_ Hv]. apply list_elem_of_lookup_2 in Hv.
    rewrite Forall_forall in Hex. rewrite (Hex n Hv). split.
    + intros Hf. now apply elem_of_nil in Hf.
    + intros (e & He & Hfrom). destruct (Hed f e He) as (_&_&?&_). lia.
  - intros v n Hv. rewrite vec_at_app in Hv.
    destruct (Z.ltb_spec v (vec_size nodes)) as [Hlt|Hge]; [eapply Hnd; eassumption|].
    apply vec_at_Some in Hv as [_ Hv]. apply list_elem_of_lookup_2 in Hv.
    rewrite Forall_forall in Hex. rewrite (Hex n Hv). constructor.
Qed.

Lemma findOrCreateNode_spec p g a g1 :
  findOrCreateNode p g = (a, g1) ->
  registry_wf g ->
  registry_wf g1 /\
  m_nodeIndex g1 !! snapKey (m_snapSize g) p = Some a /\
  (forall k v, m_nodeIndex g !! k = Some v -> m_nodeIndex g1 !! k = Some v) /\
  m_edges g1 = m_edges g /\ m_rooms g1 = m_rooms g /\
  m_snapSize g1 = m_snapSize g /\
  exists extra, m_nodes g1 = m_nodes g ++ extra /\
                Forall (fun n => outgoingEdges n = []) extra.
Proof.
  unfold findOrCreateNode. intros Hf [Hr Hi].
  destruct (m_nodeIndex g !! snapKey (m_snapSize g) p) as [v|] eqn:Hk.
  - inversion Hf; subst.
    split; [now split|]. do 2 (split; [easy|]). do 3 (split; [reflexivity|]).
    exists []. rewrite app_nil_r. auto.
  - inversion Hf; subst; cbn.
    split; [split; cbn|].
    { intros k v. rewrite vec_size_app. unfold vec_size at 3; cbn.
      destruct (decide (snapKey (m_snapSize g) p = k)) as [->|Hne].
      - rewrite lookup_insert_eq. intros [= <-]. unfold vec_size. lia.
      - rewrite lookup_insert_ne by easy. intros Hv%Hr. lia. }
    { intros k1 k2 v.
      destruct (decide (snapKey (m_snapSize g) p = k1)) as [<-|Hne1];
        destruct (decide (snapKey (m_snapSize g) p = k2)) as [<-|Hne2];
        rewrite ?lookup_insert_eq, ?lookup_insert_ne by easy; auto.
      - intros [= <-] Hv%Hr. lia.
      - intros Hv%Hr [= <-]. lia.
      - apply Hi. }
    split; [apply lookup_insert_eq|].
    split.
    { intros k v Hv. rewrite lookup_insert_ne; [easy|]. congruence. }
    do 3 (split; [reflexivity|]).
    eexists. split; [reflexivity|]. repeat constructor.
Qed.

(** ** Pairs of twins *)

Lemma even_cases (i : Z) :
  (Z.even i = true /\ exists k, i = 2 * k) \/
  (Z.even i = false /\ exists k, i = 2 * k + 1).
Proof.
  destruct (Z.even i) eqn:E.
  - left. split; [easy|]. now apply Z.even_spec.
  - right. split; [easy|]. apply Z.odd_spec. now rewrite <- Z.negb_even, E.
Qed.

Lemma pair_twin_range (n i : Z) :
  Z.even n = true -> 0 <= i < n -> 0 <= pair_twin i < n.
Proof.
  intros Hn Hi. apply Z.even_spec in Hn as [m ->]. unfold pair_twin.
  destruct (even_cases i) as [[-> [k ->]]|[-> [k ->]]]; lia.
Qed.

Lemma pair_twin_invol (i : Z) : pair_twin (pair_twin i) = i.
Proof.
  unfold pair_twin.
  destruct (even_cases i) as [[E [k ->]]|[E [k ->]]]; rewrite E.
  - replace (2 * k + 1) with (1 + 2 * k) by lia.
    rewrite Z.even_add_mul_2. cbn. lia.
  - replace (2 * k + 1 - 1) with (0 + 2 * k) by lia.
    rewrite Z.even_add_mul_2. cbn. lia.
Qed.

Lemma pair_twin_even (i : Z) : Z.even i = true -> pair_twin i = i + 1.
Proof. unfold pair_twin. now intros ->. Qed.

Lemma pair_twin_succ_even (i : Z) : Z.even i = true -> pair_twin (i + 1) = i.
Proof.
  intros H. rewrite <- (pair_twin_even i H). apply pair_twin_invol.
Qed.

(** ** The half-edge builder keeps the invariants *)

Lemma vec_at_push2 (edges : list HalfEdge) e1 e2 f e :
  vec_at (edges ++ [e1; e2]) f = Some e <->
  vec_at edges f = Some e \/
  (f = vec_size edges /\ e = e1) \/ (f = vec_size edges + 1 /\ e = e2).
Proof.
  rewrite vec_at_app. destruct (Z.ltb_spec f (vec_size edges)) as [Hlt|Hge].
  - split; [auto|]. intros [H|[[-> _]|[-> _]]]; [easy|lia..].
  - split.
    + intros [H0 H]%vec_at_Some. right.
      destruct (Z.to_nat (f - vec_size edges)) as [|[|k]] eqn:Ek; cbn in H.
      * left. split; [lia|congruence].
      * right. split; [lia|congruence].
      * discriminate.
    + intros [H|[[-> ->]|[-> ->]]].
      * apply vec_at_range in H. lia.
      * now replace (vec_size edges - vec_size edges) with 0 by lia.
      * now replace (vec_size edges + 1 - vec_size edges) with 1 by lia.
Qed.

Lemma edges_wf_push nodes edges a b ang1 ang2 :
  edges_wf nodes edges ->
  0 <= a < vec_size nodes -> 0 <= b < vec_size nodes -> a <> b ->
  edges_wf
    (vec_alter (push_out (vec_size edges + 1)) b
       (vec_alter (push_out (vec_size edges)) a nodes))
    (edges ++ [mkHalfEdge (vec_size edges) a b (vec_size edges + 1) (-1)
                 false ang1;
               mkHalfEdge (vec_size edges + 1) b a (vec_size edges) (-1)
                 false ang2]).
Proof.
  intros [Hev Hed Htw Hout Hnd] Ha Hb Hab.
  set (id1 := vec_size edges).
  assert (Hsz : 0 <= id1) by (unfold id1, vec_size; lia).
  split.
  - rewrite vec_size_app. unfold vec_size at 2. cbn.
    fold id1. change (Z.of_nat 2) with (2 * 1).
    now rewrite Z.even_add_mul_2.
  - intros i e. rewrite vec_at_push2, !vec_size_alter.
    intros [H|[[-> ->]|[-> ->]]]; cbn.
    + now apply Hed.
    + rewrite pair_twin_even by easy. fold id1. repeat split; lia.
    + rewrite pair_twin_succ_even by easy. fold id1. repeat split; lia.
  - intros i e t. rewrite !vec_at_push2. fold id1.
    intros [Hi|[[-> ->]|[-> ->]]].
    + pose proof (vec_at_range _ _ _ Hi) as Hr.
      pose proof (pair_twin_range _ _ Hev Hr) as Hr'. fold id1 in Hr, Hr'.
      intros [Ht|[[Ht _]|[Ht _]]]; [eapply Htw; eassumption|lia..].
    + rewrite pair_twin_even by easy.
      intros [Ht|[[Ht ->]|[_ ->]]]; [|lia|easy].
      apply vec_at_range in Ht. fold id1 in Ht. lia.
    + rewrite pair_twin_succ_even by easy.
      intros [Ht|[[_ ->]|[Ht ->]]]; [|easy|lia].
      apply vec_at_range in Ht. fold id1 in Ht. lia.
  - intros v n f. rewrite !vec_at_alter. fold id1.
    intros Hv.
    assert (exists n0, vec_at nodes v = Some n0 /\
              outgoingEdges n =
                (outgoingEdges n0 ++ (if decide (a = v) then [id1] else []))
                ++ (if decide (b = v) then [id1 + 1] else []))
      as (n0 & Hn0 & ->).
    { destruct (vec_at nodes v) as [n0|] eqn:En0.
      2:{ destruct (decide (b = v)), (decide (a = v)); discriminate. }
      exists n0. split; [easy|].
      destruct (decide (b = v)), (decide (a = v)); cbn in Hv;
        inversion Hv; subst; cbn; rewrite ?app_nil_r; auto; lia. }
    rewrite !elem_of_app, (Hout v n0 f Hn0).
    setoid_rewrite vec_at_push2. fold id1. split.
    + intros [[(e & He & Hfr)|Hin]|Hin].
      * exists e. auto.
      * destruct (decide (a = v)) as [<-|]; [|now apply elem_of_nil in Hin].
        apply list_elem_of_singleton in Hin as ->. eexists. split; [eauto|easy].
      * destruct (decide (b = v)) as [<-|]; [|now apply elem_of_nil in Hin].
        apply list_elem_of_singleton in Hin as ->. eexists. split; [eauto|easy].
    + intros (e & [He|[[-> ->]|[-> ->]]] & Hfr); cbn in Hfr.
      * left. left. eauto.
      * left. right. rewrite decide_True by easy. now apply list_elem_of_singleton.
      * right. rewrite decide_True by easy. now apply list_elem_of_singleton.
  - intros v n. rewrite !vec_at_alter. fold id1. intros Hv.
    assert (exists n0, vec_at nodes v = Some n0 /\
              outgoingEdges n =
                (outgoingEdges n0 ++ (if decide (a = v) then [id1] else []))
                ++ (if decide (b = v) then [id1 + 1] else []))
      as (n0 & Hn0 & ->).
    { destruct (vec_at nodes v) as [n0|] eqn:En0.
      2:{ destruct (decide (b = v)), (decide (a = v)); discriminate. }
      exists n0. split; [easy|].
      destruct (decide (b = v)), (decide (a = v)); cbn in Hv;
        inversion Hv; subst; cbn; rewrite ?app_nil_r; auto; lia. }
    assert (Hold : forall f, f ∈ outgoingEdges n0 -> f < id1).
    { intros f Hf. apply (Hout v n0 f Hn0) in Hf as (e & He & _).
      apply vec_at_range in He. fold id1 in He. lia. }
    destruct (decide (a = v)), (decide (b = v)); try lia;
      rewrite ?app_nil_r.
    + apply NoDup_app. split; [eapply Hnd; eassumption|]. split; [|apply NoDup_singleton].
      intros f Hf%Hold Hin. apply list_elem_of_singleton in Hin. lia.
    + apply NoDup_app. split; [eapply Hnd; eassumption|]. split; [|apply NoDup_singleton].
      intros f Hf%Hold Hin. apply list_elem_of_singleton in Hin. lia.
    + eapply Hnd; eassumption.
Qed.

Lemma total_out_grow nodes extra :
  Forall (fun n => outgoingEdges n = []) extra ->
  total_out (nodes ++ extra) = total_out nodes.
Proof.
  intros Hex. unfold total_out. rewrite sum_list_with_app.
  enough (sum_list_with (fun n => length (outgoingEdges n)) extra = 0%nat)
    as -> by lia.
  induction Hex as [|n extra Hn _ IH]; [easy|]. cbn. now rewrite Hn, IH.
Qed.

Lemma total_out_alter eid (i : nat) nodes :
  (i < length nodes)%nat ->
  total_out (alter (push_out eid) i nodes) = S (total_out nodes).
Proof.
  unfold total_out. revert i. induction nodes as [|n nodes IH]; intros i Hi.
  - cbn in Hi. lia.
  - destruct i as [|i]; cbn.
    + rewrite length_app. cbn. lia.
    + cbn in Hi. rewrite IH by lia. lia.
Qed.

Lemma total_out_push eid a nodes :
  0 <= a < vec_size nodes ->
  total_out (vec_alter (push_out eid) a nodes) = S (total_out nodes).
Proof.
  intros Ha. unfold vec_alter. destruct (Z.ltb_spec a 0); [lia|].
  apply total_out_alter. unfold vec_size in Ha. lia.
Qed.

Lemma accepted_true snap s :
  accepted snap s = true <-> snapKey snap (seg_a s) <> snapKey snap (seg_b s).
Proof. unfold accepted. apply bool_decide_eq_true. Qed.

Lemma accepted_false snap s :
  accepted snap s = false <-> snapKey snap (seg_a s) = snapKey snap (seg_b s).
Proof.
  unfold accepted. rewrite bool_decide_eq_false.
  split; [apply dec_stable | auto].
Qed.

Section Builder.

Variable atan2 : double -> double -> double.

(** One pass of the loop of [buildNodesAndEdges]: it never leaves the
    vectors, keeps the invariants, registers both endpoints, and pushes
    two half-edges exactly when the segment is accepted. *)
Lemma addSegment_spec s g :
  builder_inv g ->
  exists g',
    addSegment atan2 s g = Returned g' /\ builder_inv g' /\
    m_snapSize g' = m_snapSize g /\ m_rooms g' = m_rooms g /\
    (forall k v, m_nodeIndex g !! k = Some v -> m_nodeIndex g' !! k = Some v) /\
    is_Some (m_nodeIndex g' !! snapKey (m_snapSize g) (seg_a s)) /\
    is_Some (m_nodeIndex g' !! snapKey (m_snapSize g) (seg_b s)) /\
    length (m_edges g') =
      (length (m_edges g) + if accepted (m_snapSize g) s then 2 else 0)%nat /\
    (accepted (m_snapSize g) s = false ->
     m_edges g' = m_edges g /\
     map outgoingEdges (m_nodes g') =
       map outgoingEdges (m_nodes g) ++
       replicate (length (m_nodes g') - length (m_nodes g)) []).
Proof.
  intros [Hreg Hed Hfr Htot]. unfold addSegment.
  destruct (findOrCreateNode (seg_a s) g) as [a g1] eqn:Ea.
  destruct (findOrCreateNode_spec _ _ _ _ Ea Hreg)
    as (Hreg1 & Hka & Hmono1 & He1 & Hr1 & Hs1 & ex1 & Hn1 & Hex1).
  destruct (findOrCreateNode (seg_b s) g1) as [b g2] eqn:Eb.
  destruct (findOrCreateNode_spec _ _ _ _ Eb Hreg1)
    as (Hreg2 & Hkb & Hmono2 & He2 & Hr2 & Hs2 & ex2 & Hn2 & Hex2).
  rewrite Hs1 in Hkb. apply Hmono2 in Hka.
  assert (Hwf2 : edges_wf (m_nodes g2) (m_edges g2)).
  { rewrite Hn2, Hn1, He2, He1. apply edges_wf_grow; [easy|].
    now apply edges_wf_grow. }
  assert (Htot2 : total_out (m_nodes g2) = length (m_edges g2)).
  { rewrite Hn2, Hn1, He2, He1, !total_out_grow; auto. }
  assert (Hfr2 : fresh_edges (m_edges g2)) by now rewrite He2, He1.
  assert (Hsnap : m_snapSize g2 = m_snapSize g) by congruence.
  assert (Hrooms : m_rooms g2 = m_rooms g) by congruence.
  assert (Hmono : forall k v, m_nodeIndex g !! k = Some v ->
                              m_nodeIndex g2 !! k = Some v) by auto.
  pose proof (reg_range _ Hreg2 _ _ Hka) as Hra.
  pose proof (reg_range _ Hreg2 _ _ Hkb) as Hrb.
  destruct (Z.eqb_spec a b) as [Hab|Hab].
  - assert (Hacc : accepted (m_snapSize g) s = false).
    { apply accepted_false. subst b. eapply reg_inj; eauto. }
    exists g2. rewrite Hacc.
    split; [easy|]. split; [now split|].
    do 5 (split; [eauto|]). split; [rewrite He2, He1; lia|].
    intros _. split; [congruence|].
    rewrite Hn2, Hn1, !map_app, !length_app, <- app_assoc. f_equal.
    replace (length (m_nodes g) + length ex1 + length ex2 -
             length (m_nodes g))%nat with (length ex1 + length ex2)%nat by lia.
    rewrite replicate_add. f_equal.
    + clear -Hex1. induction Hex1 as [|n l Hn _ IH]; cbn; [easy|].
      now rewrite Hn, IH.
    + clear -Hex2. induction Hex2 as [|n l Hn _ IH]; cbn; [easy|].
      now rewrite Hn, IH.
  - assert (Hacc : accepted (m_snapSize g) s = true).
    { apply accepted_true. intros Hk. rewrite Hk in Hka. congruence. }
    destruct (vec_at_is_Some (m_nodes g2) a Hra) as [na Hna].
    destruct (vec_at_is_Some (m_nodes g2) b Hrb) as [nb Hnb].
    unfold vec_get. rewrite Hna, Hnb. cbn.
    eexists. split; [reflexivity|]. rewrite Hacc. cbn.
    split; [split; cbn|].
    + destruct Hreg2 as [Hrange Hinj]. split; cbn; [|easy].
      intros k v Hv. rewrite !vec_size_alter. eauto.
    + now apply edges_wf_push.
    + apply Forall_app. split; [easy|]. now repeat constructor.
    + rewrite total_out_push, total_out_push, Htot2, length_app by
        (rewrite ?vec_size_alter; easy).
      cbn. lia.
    + do 5 (split; [eauto|]). split; [|easy].
      rewrite length_app, He2, He1. cbn. lia.
Qed.

(** The initial, empty graph satisfies the invariants. *)
Lemma clear_inv g : builder_inv (clear g).
Proof.
  split; cbn.
  - split; cbn; intros *; now rewrite lookup_empty.
  - split; cbn; try easy; intros *; unfold vec_at;
      destruct (_ <? 0); cbn; try easy.
  - constructor.
  - reflexivity.
Qed.

Lemma buildNodesAndEdges_spec segs g :
  builder_inv g ->
  exists g',
    buildNodesAndEdges atan2 segs g = Returned g' /\ builder_inv g' /\
    m_snapSize g' = m_snapSize g /\ m_rooms g' = m_rooms g /\
    (forall k v, m_nodeIndex g !! k = Some v -> m_nodeIndex g' !! k = Some v) /\
    Forall (fun s =>
              is_Some (m_nodeIndex g' !! snapKey (m_snapSize g) (seg_a s)) /\
              is_Some (m_nodeIndex g' !! snapKey (m_snapSize g) (seg_b s)))
           segs /\
    length (m_edges g') =
      (length (m_edges g) +
       2 * length (filter (fun s => accepted (m_snapSize g) s = true) segs))%nat.
Proof.
  revert g. induction segs as [|s segs IH]; intros g Hinv.
  - exists g. cbn. do 5 (split; [easy|]). split; [constructor|lia].
  - destruct (addSegment_spec s g Hinv)
      as (g1 & Hadd & Hinv1 & Hs1 & Hr1 & Hm1 & Hka & Hkb & Hlen1 & _).
    destruct (IH g1 Hinv1) as (g' & Hb & Hinv' & Hs' & Hr' & Hm' & Hall & Hlen').
    exists g'. split; [cbn; rewrite Hadd; exact Hb|]. split; [easy|]. split; [congruence|].
    split; [congruence|]. split; [auto|]. split.
    + constructor.
      * destruct Hka as [va Hva], Hkb as [vb Hvb]. split; eauto.
      * now rewrite <- Hs1.
    + rewrite Hlen', Hlen1, Hs1, filter_cons.
      destruct (accepted (m_snapSize g) s) eqn:Eacc.
      * rewrite decide_True by easy. cbn. lia.
      * rewrite decide_False by easy. lia.
Qed.

End Builder.

(** ** The face-walk relation *)

Lemma find_pos_spec t out k0 :
  ((t ∉ out) /\ find_pos t out k0 = -1) \/
  (exists p : nat,
      out !! p = Some t /\ (forall q : nat, (q < p)%nat -> out !! q <> Some t) /\
      find_pos t out k0 = k0 + Z.of_nat p).
Proof.
  revert k0. induction out as [|o out IH]; intros k0; cbn.
  - left. split; [apply not_elem_of_nil|easy].
  - destruct (Z.eqb_spec o t) as [->|Hne].
    + right. exists 0%nat. split; [easy|]. split; [lia|lia].
    + destruct (IH (k0 + 1)) as [[Hnot ->]|(p & Hp & Hfirst & ->)].
      * left. split; [|easy]. rewrite not_elem_of_cons. auto.
      * right. exists (S p). split; [easy|]. split; [|lia].
        intros [|q] Hq; cbn; [congruence|]. apply Hfirst. lia.
Qed.

Lemma rem_prev (p n : Z) :
  0 <= p < n -> Z.rem (p - 1 + n) n = (p - 1) mod n /\ 0 <= (p - 1) mod n < n.
Proof.
  intros H. rewrite Z.rem_mod_nonneg by lia.
  replace (p - 1 + n) with (p - 1 + 1 * n) by lia.
  rewrite Z_mod_plus_full. split; [easy|]. apply Z.mod_pos_bound. lia.
Qed.

Lemma prev_inj (p q n : Z) :
  0 <= p < n -> 0 <= q < n -> (p - 1) mod n = (q - 1) mod n -> p = q.
Proof.
  intros Hp Hq H.
  destruct (Z.eq_dec p 0) as [->|Hp0], (Z.eq_dec q 0) as [->|Hq0]; try easy.
  - replace (0 - 1) with (n - 1 + (-1) * n) in H by lia.
    rewrite Z_mod_plus_full, !Z.mod_small in H by lia. lia.
  - replace (0 - 1) with (n - 1 + (-1) * n) in H by lia.
    rewrite Z_mod_plus_full, !Z.mod_small in H by lia. lia.
  - rewrite !Z.mod_small in H by lia. lia.
Qed.

Lemma nextRelation_fields nodes e :
  he_id (nextRelation nodes e) = he_id e /\
  he_from (nextRelation nodes e) = he_from e /\
  he_to (nextRelation nodes e) = he_to e /\
  he_twin (nextRelation nodes e) = he_twin e /\
  he_used (nextRelation nodes e) = he_used e /\
  he_angle (nextRelation nodes e) = he_angle e.
Proof.
  unfold nextRelation.
  repeat match goal with
         | |- context [if ?b then _ else _] => destruct b
         | |- context [match ?x with _ => _ end] => destruct x
         end; easy.
Qed.

(** The body of the loop of [buildNextRelations], for an edge whose target
    is a node. *)
Lemma nextRelation_spec nodes e nodeB :
  vec_at nodes (he_to e) = Some nodeB ->
  (he_twin e ∉ outgoingEdges nodeB -> nextRelation nodes e = e) /\
  (forall p : Z,
      vec_at (outgoingEdges nodeB) p = Some (he_twin e) ->
      (forall q, 0 <= q < p -> vec_at (outgoingEdges nodeB) q <> Some (he_twin e)) ->
      exists f,
        vec_at (outgoingEdges nodeB) ((p - 1) mod vec_size (outgoingEdges nodeB))
          = Some f /\
        nextRelation nodes e = set_next f e).
Proof.
  intros HB. pose proof (vec_at_range _ _ _ HB) as HrB.
  unfold nextRelation. rewrite HB.
  destruct (Z.ltb_spec (he_to e) 0); [lia|].
  destruct (Z.geb_spec (he_to e) (vec_size nodes)); [lia|]. cbn.
  set (out := outgoingEdges nodeB).
  destruct (find_pos_spec (he_twin e) out 0) as [[Hnot Hf]|(p0 & Hp0 & Hfirst & Hf)].
  - split.
    + intros _. destruct out; [easy|]. now rewrite Hf.
    + intros p [_ Hp%list_elem_of_lookup_2]%vec_at_Some. easy.
  - split.
    + intros Hnot. apply list_elem_of_lookup_2 in Hp0. easy.
    + intros p Hp Hpfirst.
      assert (p = Z.of_nat p0) as ->.
      { apply vec_at_Some in Hp as [Hp1 Hp2].
        destruct (Z.lt_trichotomy p (Z.of_nat p0)) as [Hlt|[Heq|Hgt]]; [|easy|].
        - exfalso. apply (Hfirst (Z.to_nat p)); [lia|easy].
        - exfalso. apply (Hpfirst (Z.of_nat p0)); [lia|].
          now rewrite vec_at_of_nat. }
      pose proof (vec_at_range _ _ _ Hp) as Hr.
      destruct (rem_prev _ _ Hr) as [Hrem Hbound].
      destruct (vec_at_is_Some out _ Hbound) as [f Hfn].
      exists f. split; [easy|].
      destruct out as [|o out'] eqn:Eout; [cbn in Hp0; discriminate|].
      rewrite <- Eout in *. rewrite Hf.
      destruct (Z.ltb_spec (0 + Z.of_nat p0) 0); [lia|].
      replace (0 + Z.of_nat p0) with (Z.of_nat p0) by lia.
      now rewrite Hrem, Hfn.
Qed.

Lemma vec_at_fmap {A B} (f : A -> B) (v : list A) i :
  vec_at (f <$> v) i = f <$> vec_at v i.
Proof. unfold vec_at. destruct (i <? 0); [easy|]. apply list_lookup_fmap. Qed.

Lemma vec_at_fmap_Some {A B} (f : A -> B) (v : list A) i b :
  vec_at (f <$> v) i = Some b <-> exists a, vec_at v i = Some a /\ b = f a.
Proof.
  rewrite vec_at_fmap. destruct (vec_at v i) as [a|]; cbn; split.
  - intros [= <-]. eauto.
  - now intros (a' & [= <-] & ->).
  - easy.
  - now intros (? & ? & _).
Qed.

Lemma vec_size_fmap {A B} (f : A -> B) (v : list A) :
  vec_size (f <$> v) = vec_size v.
Proof. unfold vec_size. now rewrite length_fmap. Qed.

Lemma edges_wf_next nodes edges :
  edges_wf nodes edges -> edges_wf nodes (nextRelation nodes <$> edges).
Proof.
  intros [Hev Hed Htw Hout Hnd]. split; auto.
  - now rewrite vec_size_fmap.
  - intros i e' (e & He & ->)%vec_at_fmap_Some.
    destruct (nextRelation_fields nodes e) as (-> & -> & -> & -> & _). eauto.
  - intros i e' t' (e & He & ->)%vec_at_fmap_Some (t & Ht & ->)%vec_at_fmap_Some.
    destruct (nextRelation_fields nodes e) as (_ & -> & -> & _).
    destruct (nextRelation_fields nodes t) as (_ & -> & -> & _). eauto.
  - intros v n f Hv. rewrite (Hout v n f Hv). split.
    + intros (e & He & Hfr). exists (nextRelation nodes e). split.
      * apply vec_at_fmap_Some. eauto.
      * now destruct (nextRelation_fields nodes e) as (_ & -> & _).
    + intros (e' & (e & He & ->)%vec_at_fmap_Some & Hfr).
      exists e. split; [easy|].
      now destruct (nextRelation_fields nodes e) as (_ & <- & _).
Qed.

(** In a graph with well-formed edge arrays, the loop body finds the twin
    and sets [next] to an edge that leaves the target node. *)
Lemma nextRelation_built nodes edges i e :
  edges_wf nodes edges -> vec_at edges i = Some e ->
  exists nodeB p f ef,
    vec_at nodes (he_to e) = Some nodeB /\
    vec_at (outgoingEdges nodeB) p = Some (pair_twin i) /\
    vec_at (outgoingEdges nodeB) ((p - 1) mod vec_size (outgoingEdges nodeB))
      = Some f /\
    nextRelation nodes e = set_next f e /\
    vec_at edges f = Some ef /\ he_from ef = he_to e.
Proof.
  intros [Hev Hed Htw Hout Hnd] He.
  destruct (Hed i e He) as (Hid & Htwin & Hfrom & Hto & Hne).
  destruct (vec_at_is_Some nodes _ Hto) as [nodeB HB].
  pose proof (vec_at_range _ _ _ He) as Hri.
  destruct (vec_at_is_Some edges _ (pair_twin_range _ _ Hev Hri)) as [t Ht].
  destruct (Htw i e t He Ht) as [Htf Htt].
  assert (Hin : he_twin e ∈ outgoingEdges nodeB).
  { apply (Hout _ _ _ HB). rewrite Htwin. eauto. }
  apply list_elem_of_lookup_1 in Hin as [p0 Hp0].
  destruct (nextRelation_spec nodes e nodeB HB) as [_ Hfound].
  destruct (Hfound (Z.of_nat p0)) as (f & Hf & Hnext).
  { now rewrite vec_at_of_nat. }
  { intros q Hq [_ Hq']%vec_at_Some.
    pose proof (NoDup_lookup _ _ _ _ (Hnd _ _ HB) Hp0 Hq'). lia. }
  assert (Hfin : f ∈ outgoingEdges nodeB).
  { apply vec_at_Some in Hf as [_ Hf]. eapply list_elem_of_lookup_2, Hf. }
  apply (Hout _ _ _ HB) in Hfin as (ef & Hef & Heffrom).
  exists nodeB, (Z.of_nat p0), f, ef.
  rewrite vec_at_of_nat, <- Htwin. auto 10.
Qed.

Lemma links_wf_built nodes edges :
  edges_wf nodes edges -> links_wf nodes (nextRelation nodes <$> edges).
Proof.
  intros Hwf. pose proof Hwf as [Hev Hed Htw Hout Hnd]. split.
  - intros i e' (e & He & ->)%vec_at_fmap_Some.
    destruct (Hed i e He) as (Hid & Htwin & Hfrom & Hto & Hne).
    destruct (nextRelation_built _ _ _ _ Hwf He)
      as (nodeB & p & f & ef & HB & Hp & Hf & -> & Hef & Hfrom').
    cbn. rewrite vec_size_fmap.
    pose proof (vec_at_range _ _ _ Hef).
    repeat split; try easy; try lia.
    intros ->. assert (ef = e) as -> by congruence. lia.
  - intros i j ei' ej' (ei & Hei & ->)%vec_at_fmap_Some
      (ej & Hej & ->)%vec_at_fmap_Some.
    destruct (nextRelation_built _ _ _ _ Hwf Hei)
      as (Bi & p & f & ef & HBi & Hp & Hf & -> & Hef & Hfromi).
    destruct (nextRelation_built _ _ _ _ Hwf Hej)
      as (Bj & q & f' & ef' & HBj & Hq & Hf' & -> & Hef' & Hfromj).
    cbn. intros <-. assert (ef' = ef) as -> by congruence.
    assert (Bj = Bi) as -> by congruence.
    assert (p = q) as <-.
    { apply (prev_inj p q (vec_size (outgoingEdges Bi)));
        [eapply vec_at_range; eassumption..|].
      apply vec_at_Some in Hf as [Hf0 Hf], Hf' as [Hf0' Hf'].
      pose proof (NoDup_lookup _ _ _ _ (Hnd _ _ HBi) Hf Hf'). lia. }
    rewrite <- (pair_twin_invol i), <- (pair_twin_invol j). congruence.
Qed.

(** ** The angular sorter *)

Section Sorter.

Variable sort : (Z -> Z -> bool) -> list Z -> list Z.

(** [std::sort] permutes the range it is given. *)
Hypothesis sort_perm : forall cmp l, sort cmp l ≡ₚ l.

Lemma sortOutgoing_perm edges n :
  outgoingEdges (sortOutgoing sort edges n) ≡ₚ outgoingEdges n.
Proof.
  unfold sortOutgoing. destruct (_ <=? _)%nat; [easy|]. cbn. apply sort_perm.
Qed.

Lemma edges_wf_sorted nodes edges edges0 :
  edges_wf nodes edges ->
  edges_wf (sortOutgoing sort edges0 <$> nodes) edges.
Proof.
  intros [Hev Hed Htw Hout Hnd]. split; auto.
  - intros i e He. rewrite vec_size_fmap. eauto.
  - intros v n' f (n & Hn & ->)%vec_at_fmap_Some.
    rewrite sortOutgoing_perm. eauto.
  - intros v n' (n & Hn & ->)%vec_at_fmap_Some.
    rewrite sortOutgoing_perm. eauto.
Qed.

End Sorter.

(** ** The cycle walker *)

Lemma unmark_set_used e : unmark (set_used e) = unmark e.
Proof. reflexivity. Qed.

Lemma unmark_alter c es :
  unmark <$> vec_alter set_used c es = unmark <$> es.
Proof.
  unfold vec_alter. destruct (c <? 0); [easy|].
  rewrite (list_fmap_alter unmark set_used id).
  - apply list_alter_id. easy.
  - apply Forall_forall. intros. apply unmark_set_used.
Qed.

Lemma unmark_lookup es es' i e' :
  unmark <$> es' = unmark <$> es -> vec_at es' i = Some e' ->
  exists e, vec_at es i = Some e /\ unmark e' = unmark e.
Proof.
  intros Heq He'.
  assert (H : vec_at (unmark <$> es) i = Some (unmark e')).
  { rewrite <- Heq. apply vec_at_fmap_Some. eauto. }
  apply vec_at_fmap_Some in H as (e & He & Hu). eauto.
Qed.

Lemma unmark_size es es' :
  unmark <$> es' = unmark <$> es -> vec_size es' = vec_size es.
Proof.
  intros H. rewrite <- (vec_size_fmap unmark es'), H. apply vec_size_fmap.
Qed.

Lemma unmark_fields e e' :
  unmark e' = unmark e ->
  he_id e' = he_id e /\ he_from e' = he_from e /\ he_to e' = he_to e /\
  he_twin e' = he_twin e /\ he_next e' = he_next e.
Proof. unfold unmark. intros [= -> -> -> -> ->]. easy. Qed.

Lemma links_wf_unmark nodes es es' :
  unmark <$> es' = unmark <$> es -> links_wf nodes es -> links_wf nodes es'.
Proof.
  intros Heq [Hed Hinj]. split.
  - intros i e' He'. destruct (unmark_lookup _ _ _ _ Heq He') as (e & He & Hu).
    apply unmark_fields in Hu as (-> & -> & _ & _ & ->).
    rewrite (unmark_size _ _ Heq). eauto.
  - intros i j ei' ej' Hi Hj.
    destruct (unmark_lookup _ _ _ _ Heq Hi) as (ei & Hei & Hui).
    destruct (unmark_lookup _ _ _ _ Heq Hj) as (ej & Hej & Huj).
    apply unmark_fields in Hui as (_ & _ & _ & _ & ->).
    apply unmark_fields in Huj as (_ & _ & _ & _ & ->). eauto.
Qed.

Lemma unused_count_alter (i : nat) es e :
  es !! i = Some e -> he_used e = false ->
  S (unused_count (alter set_used i es)) = unused_count es.
Proof.
  unfold unused_count. revert i. induction es as [|x es IH]; intros i Hi Hu.
  - discriminate.
  - destruct i as [|i]; cbn in Hi.
    + inversion Hi; subst x.
      change (alter set_used 0%nat (e :: es)) with (set_used e :: es).
      rewrite !filter_cons, decide_False, decide_True by easy. easy.
    + change (alter set_used (S i) (x :: es)) with (x :: alter set_used i es).
      rewrite !filter_cons. destruct (decide (he_used x = false)).
      * rewrite !length_cons. f_equal. now apply IH.
      * now apply IH.
Qed.

Lemma unused_count_mark c es e :
  vec_at es c = Some e -> he_used e = false ->
  S (unused_count (vec_alter set_used c es)) = unused_count es.
Proof.
  intros [H0 H]%vec_at_Some Hu. unfold vec_alter.
  destruct (Z.ltb_spec c 0); [lia|]. now apply unused_count_alter with e.
Qed.

(** Marking leaves the other edges as they are. *)
Lemma mark_lookup c es i e' :
  vec_at (vec_alter set_used c es) i = Some e' ->
  exists e, vec_at es i = Some e /\
            ((i = c /\ e' = set_used e) \/ (i <> c /\ e' = e)).
Proof.
  rewrite vec_at_alter. destruct (decide (c = i)) as [->|Hne].
  - destruct (vec_at es i) as [e|]; [|easy]. intros [= <-]. eauto.
  - intros H. exists e'. split; [easy|]. right. split; [congruence|easy].
Qed.

Lemma used_at_mark c es j :
  used_at (vec_alter set_used c es) j ->
  j = c \/ used_at es j.
Proof.
  intros (e' & (e & He & [[-> ->]|[Hne ->]])%mark_lookup & Hu); [now left|].
  right. now exists e.
Qed.

Lemma used_at_mark_mono c es j :
  used_at es j -> used_at (vec_alter set_used c es) j.
Proof.
  intros (e & He & Hu). destruct (decide (c = j)) as [->|Hne].
  - exists (set_used e). split; [now apply vec_at_alter_eq|easy].
  - exists e. split; [now rewrite vec_at_alter_ne|easy].
Qed.

(** One pass of the inner loop on an unused edge that has a source node
    and a [next]. *)
Lemma walkLoop_step fuel nodes s es c poly it e node :
  vec_at es c = Some e -> he_used e = false ->
  vec_at nodes (he_from e) = Some node -> 0 <= he_next e ->
  walkLoop (S fuel) nodes s es c poly it =
  if he_next e =? s
  then Returned (vec_alter set_used c es, poly ++ [pos node], ExitClosed, S it)
  else walkLoop fuel nodes s (vec_alter set_used c es) (he_next e)
         (poly ++ [pos node]) (S it).
Proof.
  intros Hc Hu Hn Hnext. pose proof (vec_at_range _ _ _ Hn) as Hr.
  cbn [walkLoop]. unfold vec_get. rewrite Hc. cbn. rewrite Hu.
  destruct (Z.ltb_spec (he_from e) 0); [lia|].
  destruct (Z.geb_spec (he_from e) (vec_size nodes)); [lia|]. cbn.
  rewrite Hn. cbn. destruct (Z.ltb_spec (he_next e) 0); [lia|]. reflexivity.
Qed.

(** In a graph whose [next] is injective, a walk started on an unused edge
    closes back at its start: it never meets a used edge, and the marked
    edges are again closed under predecessors when it ends. *)
Lemma walkLoop_closed nodes s fuel :
  forall es c poly it,
    links_wf nodes es ->
    (forall i e, vec_at es i = Some e -> used_at es (he_next e) ->
                 he_next e <> s -> he_used e = true) ->
    (exists ec, vec_at es c = Some ec /\ he_used ec = false) ->
    (c = s \/ exists i e, vec_at es i = Some e /\ he_used e = true /\
                          he_next e = c) ->
    (unused_count es < fuel)%nat ->
    exists es' poly' k,
      walkLoop fuel nodes s es c poly it =
        Returned (es', poly', ExitClosed, (it + k)%nat) /\
      unmark <$> es' = unmark <$> es /\
      closed_under_pred es' /\
      (unused_count es' + k = unused_count es)%nat /\
      (forall j, used_at es j -> used_at es' j) /\ used_at es' c.
Proof.
  induction fuel as [|fuel IH]; intros es c poly it Hwf J1 (ec & Hc & Hu) J3 Hfuel;
    [lia|].
  destruct (lw_edge _ _ Hwf _ _ Hc) as (Hid & Hfrom & Hnext & Hself).
  destruct (vec_at_is_Some nodes _ Hfrom) as [node Hnode].
  rewrite (walkLoop_step _ _ _ _ _ _ _ _ _ Hc Hu Hnode) by lia.
  pose proof (unused_count_mark _ _ _ Hc Hu) as Hcount.
  set (es1 := vec_alter set_used c es) in *.
  assert (Hwf1 : links_wf nodes es1).
  { eapply links_wf_unmark; [apply unmark_alter|easy]. }
  (* the predecessor of [c], when [c] is not the start, is marked *)
  assert (Hpred : forall i e, vec_at es i = Some e -> he_next e = c ->
                              c <> s -> he_used e = true).
  { intros i e He Hn Hcs. destruct J3 as [->|(i0 & e0 & He0 & Hu0 & Hn0)]; [easy|].
    assert (i = i0) as -> by (eapply (lw_inj _ _ Hwf); eauto; congruence).
    congruence. }
  destruct (Z.eqb_spec (he_next ec) s) as [Hclose|Hopen].
  - exists es1, (poly ++ [pos node]), 1%nat.
    split; [now rewrite Nat.add_1_r|]. split; [apply unmark_alter|].
    assert (Hcu : used_at es1 c).
    { exists (set_used ec). split; [now apply vec_at_alter_eq|easy]. }
    split; [|split; [lia|split; [apply used_at_mark_mono|easy]]].
    intros i e' (e & He & [[-> ->]|[Hne ->]])%mark_lookup Hused; [easy|].
    apply used_at_mark in Hused as [Hn|Hused].
    + destruct (decide (c = s)) as [->|Hcs]; [|eauto].
      exfalso. apply Hne. eapply (lw_inj _ _ Hwf); eauto. congruence.
    + destruct (decide (he_next e = s)) as [Hs|Hs]; [|eauto].
      exfalso. apply Hne. eapply (lw_inj _ _ Hwf); eauto. congruence.
  - destruct (vec_at_is_Some es _ Hnext) as [en Hen].
    destruct (IH es1 (he_next ec) (poly ++ [pos node]) (S it) Hwf1)
      as (es' & poly' & k & Hrun & Hunm & Hclosed & Hcnt & Hmono & _).
    + intros i e' (e & He & [[-> ->]|[Hne ->]])%mark_lookup Hused Hns; [easy|].
      apply used_at_mark in Hused as [Hn|Hused]; [|eauto].
      apply (Hpred i e He Hn). congruence.
    + exists en. split; [unfold es1; now rewrite vec_at_alter_ne|].
      destruct (he_used en) eqn:Hen_used; [|easy].
      assert (he_used ec = true) by (apply (J1 c ec Hc); [now exists en|easy]).
      congruence.
    + right. exists c, (set_used ec). split; [now apply vec_at_alter_eq|easy].
    + lia.
    + exists es', poly', (S k). split; [now rewrite Nat.add_succ_r|].
      split; [rewrite Hunm; apply unmark_alter|]. split; [easy|].
      split; [lia|]. split; [intros j Hj; now apply Hmono, used_at_mark_mono|].
      apply Hmono. exists (set_used ec). split; [now apply vec_at_alter_eq|easy].
Qed.

Lemma walkFrom_cons fuel i rest g trace start :
  vec_at (m_edges g) (Z.of_nat i) = Some start ->
  walkFrom fuel (i :: rest) g trace =
  if he_used start then walkFrom fuel rest g trace
  else
    r ← walkLoop fuel (m_nodes g) (he_id start) (m_edges g) (he_id start) [] 0;
    let '(edges', poly, ex, n) := r in
    walkFrom fuel rest (with_walk g edges' (roomOf poly))
      (trace ++ [mkWalk (Z.of_nat i) ex n poly (roomOf poly)]).
Proof. intros H. cbn [walkFrom]. unfold vec_get. now rewrite H. Qed.

(** The outer loop on a graph whose [next] is injective: every walk
    closes, and each entry into the inner loop body marks one more edge. *)
Lemma walkFrom_closed fuel :
  forall idxs g trace,
    links_wf (m_nodes g) (m_edges g) ->
    closed_under_pred (m_edges g) ->
    Forall (fun i => (i < length (m_edges g))%nat) idxs ->
    (unused_count (m_edges g) < fuel)%nat ->
    exists g' walks,
      walkFrom fuel idxs g trace = Returned (g', trace ++ walks) /\
      Forall (fun w => w_exit w = ExitClosed) walks /\
      unmark <$> m_edges g' = unmark <$> m_edges g /\
      (total_iters walks + unused_count (m_edges g')
       = unused_count (m_edges g))%nat.
Proof.
  induction idxs as [|i rest IH]; intros g trace Hwf Hcl Hidx Hfuel.
  - exists g, []. cbn. rewrite app_nil_r. repeat split; auto.
  - inversion Hidx as [|? ? Hi Hrest]; subst.
    destruct (vec_at_is_Some (m_edges g) (Z.of_nat i)) as [start Hstart];
      [unfold vec_size; lia|].
    rewrite (walkFrom_cons _ _ _ _ _ _ Hstart).
    destruct (he_used start) eqn:Hused; [now apply IH|].
    destruct (lw_edge _ _ Hwf _ _ Hstart) as (Hid & _).
    rewrite Hid.
    destruct (walkLoop_closed (m_nodes g) (Z.of_nat i) fuel (m_edges g)
                (Z.of_nat i) [] 0%nat Hwf)
      as (es' & poly' & k & Hrun & Hunm & Hcl' & Hcnt & Hmono & _);
      [intros; eapply Hcl; eauto | eauto | now left | easy |].
    rewrite Hrun. cbn.
    set (w := mkWalk _ _ _ _ _).
    destruct (IH (with_walk g es' (roomOf poly')) (trace ++ [w]))
      as (g' & walks & Hrun' & Hall & Hunm' & Hcnt');
      cbn [with_walk m_edges m_nodes] in *.
    + eapply links_wf_unmark; eauto.
    + easy.
    + apply (f_equal length) in Hunm. rewrite !length_fmap in Hunm.
      now rewrite Hunm.
    + lia.
    + exists g', (w :: walks). rewrite Hrun', <- app_assoc.
      split; [easy|]. split; [now constructor|].
      split; [congruence|]. unfold total_iters in *.
      change (sum_list_with w_iters (w :: walks))
        with (k + sum_list_with w_iters walks)%nat. lia.
Qed.

(** On any graph: the room pushed for a walk is decided by its polygon
    alone, and the walker touches neither the nodes nor the registry. *)
Lemma walkFrom_rooms fuel :
  forall idxs g trace g' trace',
    walkFrom fuel idxs g trace = Returned (g', trace') ->
    exists walks,
      trace' = trace ++ walks /\
      Forall (fun w => w_room w = roomOf (w_poly w)) walks /\
      m_rooms g' = m_rooms g ++ omap w_room walks /\
      m_nodes g' = m_nodes g /\ m_nodeIndex g' = m_nodeIndex g /\
      m_snapSize g' = m_snapSize g.
Proof.
  induction idxs as [|i rest IH]; intros g trace g' trace' Hrun.
  - cbn in Hrun. inversion Hrun; subst. exists []. cbn.
    rewrite !app_nil_r. repeat split; auto.
  - cbn [walkFrom] in Hrun.
    destruct (vec_get (m_edges g) (Z.of_nat i)) as [start| |]; cbn in Hrun;
      try discriminate.
    destruct (he_used start); [now apply IH|].
    destruct (walkLoop _ _ _ _ _ _ _) as [[[[es' poly] ex] n]| |];
      cbn in Hrun; try discriminate.
    apply IH in Hrun as (walks & -> & Hall & Hrooms & Hn & Hi & Hs).
    cbn in *. eexists (_ :: walks). rewrite <- app_assoc.
    split; [reflexivity|]. split; [now constructor|].
    split; [|easy]. rewrite Hrooms, <- app_assoc. cbn.
    now destruct (roomOf poly).
Qed.

(** More fuel does not change what a walk returns. *)
Lemma walkLoop_fuel_mono nodes s fuel :
  forall fuel' es c poly it r,
    (fuel <= fuel')%nat ->
    walkLoop fuel nodes s es c poly it = Returned r ->
    walkLoop fuel' nodes s es c poly it = Returned r.
Proof.
  induction fuel as [|fuel IH]; intros fuel' es c poly it r Hle Hrun;
    [discriminate|].
  destruct fuel' as [|fuel']; [lia|]. cbn [walkLoop] in *.
  destruct (vec_get es c) as [e| |]; cbn in *; try discriminate.
  destruct (he_used e); [easy|].
  destruct (_ || _); [easy|].
  destruct (vec_get nodes (he_from e)) as [node| |]; cbn in *; try discriminate.
  destruct (he_next e <? 0); [easy|].
  destruct (he_next e =? s); [easy|].
  apply IH; [lia|easy].
Qed.

Lemma walkFrom_fuel_mono fuel fuel' :
  (fuel <= fuel')%nat ->
  forall idxs g trace r,
    walkFrom fuel idxs g trace = Returned r ->
    walkFrom fuel' idxs g trace = Returned r.
Proof.
  intros Hle. induction idxs as [|i rest IH]; intros g trace r Hrun; [easy|].
  cbn [walkFrom] in *.
  destruct (vec_get (m_edges g) (Z.of_nat i)) as [start| |]; cbn in *;
    try discriminate.
  destruct (he_used start); [now apply IH|].
  destruct (walkLoop fuel _ _ _ _ _ _) as [[[[es' poly] ex] n]| |] eqn:Hw;
    cbn in Hrun; try discriminate.
  rewrite (walkLoop_fuel_mono _ _ _ _ _ _ _ _ _ Hle Hw). cbn. now apply IH.
Qed.

(** A walk marks an unused edge on every pass that is followed by another
    one, so it cannot use up more fuel than there are unused edges. *)
Lemma walkLoop_fuel_enough nodes s fuel :
  forall es c poly it,
    (unused_count es < fuel)%nat ->
    walkLoop fuel nodes s es c poly it <> OutOfFuel.
Proof.
  induction fuel as [|fuel IH]; intros es c poly it Hfuel; [lia|].
  cbn [walkLoop]. unfold vec_get.
  destruct (vec_at es c) as [e|] eqn:Hc; cbn; [|easy].
  destruct (he_used e) eqn:Hu; [easy|].
  destruct (_ || _); [easy|].
  destruct (vec_at nodes (he_from e)) as [node|]; cbn; [|easy].
  destruct (he_next e <? 0); [easy|].
  destruct (he_next e =? s); [easy|].
  apply IH. pose proof (unused_count_mark _ _ _ Hc Hu). lia.
Qed.

Lemma walkLoop_length nodes s fuel :
  forall es c poly it es' poly' ex n,
    walkLoop fuel nodes s es c poly it = Returned (es', poly', ex, n) ->
    length es' = length es.
Proof.
  induction fuel as [|fuel IH]; intros es c poly it es' poly' ex n Hrun;
    [discriminate|].
  cbn [walkLoop] in Hrun.
  destruct (vec_get es c) as [e| |]; cbn in Hrun; try discriminate.
  assert (Hlen : length (vec_alter set_used c es) = length es).
  { apply Nat2Z.inj. apply vec_size_alter. }
  destruct (he_used e); [now inversion Hrun|].
  destruct (_ || _); [now inversion Hrun; subst|].
  destruct (vec_get nodes (he_from e)) as [node| |]; cbn in Hrun;
    try discriminate.
  destruct (he_next e <? 0); [now inversion Hrun; subst|].
  destruct (he_next e =? s); [now inversion Hrun; subst|].
  apply IH in Hrun. congruence.
Qed.

(** On any graph state, no walk of [walkCycles] is cut short by the bound on
    the passes of the inner loop. *)
Lemma walkFrom_never_out_of_fuel fuel :
  forall idxs g trace,
    (length (m_edges g) < fuel)%nat ->
    walkFrom fuel idxs g trace <> OutOfFuel.
Proof.
  induction idxs as [|i rest IH]; intros g trace Hfuel; [easy|].
  cbn [walkFrom].
  unfold vec_get.
  destruct (vec_at (m_edges g) (Z.of_nat i)) as [start|];
    cbn [mbind outcome_bind]; [|discriminate].
  destruct (he_used start); [now apply IH|].
  destruct (walkLoop fuel _ _ _ _ _ _) as [[[[es' poly] ex] n]| |] eqn:Hw;
    cbn [mbind outcome_bind]; [|discriminate|].
  - apply IH. cbn. now rewrite (walkLoop_length _ _ _ _ _ _ _ _ _ _ _ Hw).
  - exfalso. revert Hw. apply walkLoop_fuel_enough.
    pose proof (length_filter (fun e => he_used e = false) (m_edges g)).
    unfold unused_count. lia.
Qed.

Lemma walkCycles_never_out_of_fuel g : walkCycles g <> OutOfFuel.
Proof.
  unfold walkCycles, walkCycles_trace.
  pose proof (walkFrom_never_out_of_fuel (S (length (m_edges g)))
                (seq 0 (length (m_edges g))) g [] (Nat.lt_succ_diag_r _)) as H.
  now destruct (walkFrom _ _ _ _).
Qed.

(** ** The whole build *)

Lemma unused_fresh_closed es :
  Forall (fun e => he_used e = false) es -> closed_under_pred es.
Proof.
  intros Hall i e _ (e' & He' & Hu). rewrite Forall_forall in Hall.
  apply vec_at_Some in He' as [_ He']. apply list_elem_of_lookup_2 in He'.
  rewrite (Hall e' He') in Hu. discriminate.
Qed.

Lemma unused_count_le es : (unused_count es <= length es)%nat.
Proof. apply length_filter. Qed.

Lemma build_as_trace atan2 sort segs g :
  build atan2 sort segs g =
  r ← build_trace atan2 sort segs g; Returned (fst r).
Proof.
  unfold build, build_trace, walkCycles. destruct segs; [easy|].
  now destruct (buildGraph _ _ _ _).
Qed.

Lemma clear_clear g g' : m_snapSize g' = m_snapSize g -> clear g' = clear g.
Proof. unfold clear. now intros ->. Qed.

Lemma walkCycles_trace_links fuel g g' walks :
  walkCycles_trace fuel g = Returned (g', walks) ->
  m_rooms g' = m_rooms g ++ omap w_room walks /\
  Forall (fun w => w_room w = roomOf (w_poly w)) walks /\
  m_nodes g' = m_nodes g /\ m_snapSize g' = m_snapSize g.
Proof.
  intros (ws & Hws & Hall & Hrooms & Hn & _ & Hs)%walkFrom_rooms.
  cbn in Hws. subst ws. auto.
Qed.

Section Build.

Variable atan2 : double -> double -> double.
Variable sort : (Z -> Z -> bool) -> list Z -> list Z.
Hypothesis sort_perm : forall cmp l, sort cmp l ≡ₚ l.

(** Steps 1 to 3 of [build] never leave the vectors, and produce a graph
    with well-formed edge arrays and an injective [next]. *)
Lemma buildGraph_spec segs g :
  exists g1 g3,
    buildNodesAndEdges atan2 segs (clear g) = Returned g1 /\
    builder_inv g1 /\
    buildGraph atan2 sort segs g = Returned g3 /\
    g3 = buildNextRelations (sortOutgoingByAngle sort g1) /\
    edges_wf (m_nodes g3) (m_edges g3) /\
    links_wf (m_nodes g3) (m_edges g3) /\
    Forall (fun e => he_used e = false) (m_edges g3) /\
    m_rooms g3 = [] /\ m_snapSize g3 = m_snapSize g /\
    length (m_edges g3) = length (m_edges g1).
Proof.
  destruct (buildNodesAndEdges_spec atan2 segs (clear g) (clear_inv g))
    as (g1 & Hb & Hinv & Hsnap & Hrooms & _).
  exists g1, (buildNextRelations (sortOutgoingByAngle sort g1)).
  unfold buildGraph. rewrite Hb. cbn.
  pose proof (edges_wf_sorted sort sort_perm _ _ (m_edges g1) (bi_edges _ Hinv))
    as Hsorted.
  do 4 (split; [easy|]).
  split; [now apply edges_wf_next|]. split; [now apply links_wf_built|].
  split.
  { apply Forall_fmap. eapply Forall_impl; [apply (bi_fresh _ Hinv)|].
    intros e [_ Hu]. cbn.
    now destruct (nextRelation_fields
                    (sortOutgoing sort (m_edges g1) <$> m_nodes g1) e)
      as (_ & _ & _ & _ & -> & _). }
  split; [easy|]. split; [easy|]. now rewrite length_fmap.
Qed.

(** The cycle walk of a built graph: it returns, whatever fuel above the
    number of edges it is given; every walk closes; each entry into the
    inner loop body marks one more edge. *)
Lemma walk_built segs g g3 :
  buildGraph atan2 sort segs g = Returned g3 ->
  exists g' walks,
    (forall fuel, (length (m_edges g3) < fuel)%nat ->
                  walkCycles_trace fuel g3 = Returned (g', walks)) /\
    Forall (fun w => w_exit w = ExitClosed) walks /\
    unmark <$> m_edges g' = unmark <$> m_edges g3 /\
    (total_iters walks + unused_count (m_edges g')
     = unused_count (m_edges g3))%nat.
Proof.
  intros Hg3.
  destruct (buildGraph_spec segs g)
    as (g1 & g3' & _ & _ & Hg3' & _ & _ & Hlinks & Hunused & _).
  assert (g3' = g3) as -> by congruence.
  pose proof (unused_count_le (m_edges g3)) as Hle.
  destruct (walkFrom_closed (S (length (m_edges g3)))
              (seq 0 (length (m_edges g3))) g3 [] Hlinks
              (unused_fresh_closed _ Hunused))
    as (g' & walks & Hrun & Hall & Hunm & Hcnt).
  { apply Forall_seq. intros; lia. }
  { lia. }
  exists g', walks. split; [|easy].
  intros fuel Hfuel. unfold walkCycles_trace.
  apply (walkFrom_fuel_mono (S (length (m_edges g3)))); [lia|easy].
Qed.

(** [build] returns, on every input and from every prior state. *)
Lemma build_trace_spec segs g :
  exists g' walks,
    build_trace atan2 sort segs g = Returned (g', walks) /\
    build atan2 sort segs g = Returned g' /\
    Forall (fun w => w_exit w = ExitClosed) walks /\
    m_snapSize g' = m_snapSize g /\
    m_rooms g' = omap w_room walks.
Proof.
  rewrite build_as_trace. unfold build_trace.
  destruct segs as [|s segs].
  { exists (clear g), []. cbn. auto. }
  destruct (buildGraph_spec (s :: segs) g)
    as (g1 & g3 & _ & _ & Hg3 & _ & _ & _ & _ & Hrooms & Hsnap & _).
  destruct (walk_built _ _ _ Hg3) as (g' & walks & Hrun & Hall & _).
  rewrite Hg3. cbn. rewrite Hrun by lia. cbn.
  exists g', walks. do 3 (split; [easy|]).
  destruct (walkCycles_trace_links _ _ _ _ (Hrun _ (Nat.lt_succ_diag_r _)))
    as (Hr & _ & _ & Hs).
  rewrite Hr, Hrooms, Hs. easy.
Qed.

End Build.

(** Insertion sort is a permutation. *)
Lemma insert_sorted_perm cmp x k : insert_sorted cmp x k ≡ₚ x :: k.
Proof.
  induction k as [|y k IH]; [easy|]. cbn. destruct (cmp y x); [|easy].
  rewrite IH. apply Permutation_swap.
Qed.

Lemma insertion_sort_perm cmp l : insertion_sort cmp l ≡ₚ l.
Proof.
  induction l as [|x l IH]; [easy|].
  change (insertion_sort cmp (x :: l))
    with (insert_sorted cmp x (insertion_sort cmp l)).
  now rewrite insert_sorted_perm, IH.
Qed.

Lemma edges_wf_unmark nodes es es' :
  unmark <$> es' = unmark <$> es -> edges_wf nodes es -> edges_wf nodes es'.
Proof.
  intros Heq [Hev Hed Htw Hout Hnd]. split; auto.
  - now rewrite (unmark_size _ _ Heq).
  - intros i e' He'. destruct (unmark_lookup _ _ _ _ Heq He') as (e & He & Hu).
    apply unmark_fields in Hu as (-> & -> & -> & -> & _). eauto.
  - intros i e' t' He' Ht'.
    destruct (unmark_lookup _ _ _ _ Heq He') as (e & He & Hu).
    destruct (unmark_lookup _ _ _ _ Heq Ht') as (t & Ht & Hut).
    apply unmark_fields in Hu as (_ & -> & -> & _).
    apply unmark_fields in Hut as (_ & -> & -> & _). eauto.
  - intros v n f Hv. rewrite (Hout v n f Hv). split.
    + intros (e & He & Hfr).
      assert (H : vec_at (unmark <$> es') f = Some (unmark e)).
      { rewrite Heq. apply vec_at_fmap_Some. eauto. }
      apply vec_at_fmap_Some in H as (e' & He' & Hu).
      exists e'. split; [easy|]. symmetry in Hu.
      now apply unmark_fields in Hu as (_ & -> & _).
    + intros (e' & He' & Hfr).
      destruct (unmark_lookup _ _ _ _ Heq He') as (e & He & Hu).
      exists e. split; [easy|].
      now apply unmark_fields in Hu as (_ & <- & _).
Qed.

Lemma resolve_registered g p v :
  m_nodeIndex g !! snapKey (m_snapSize g) p = Some v -> resolve g p = v.
Proof. unfold resolve, findOrCreateNode. now intros ->. Qed.

Lemma filter_Forall_iff {A} (P Q : A -> Prop)
    `{!forall x, Decision (P x), !forall x, Decision (Q x)} (l : list A) :
  Forall (fun x => P x <-> Q x) l -> filter P l = filter Q l.
Proof.
  induction 1 as [|x l Hx _ IH]; [easy|]. rewrite !filter_cons, IH.
  destruct (decide (P x)), (decide (Q x)); tauto.
Qed.

(** Which segments the builder accepts, read off the final registry. *)
Lemma accepted_resolve g s :
  registry_wf g ->
  is_Some (m_nodeIndex g !! snapKey (m_snapSize g) (seg_a s)) ->
  is_Some (m_nodeIndex g !! snapKey (m_snapSize g) (seg_b s)) ->
  accepted (m_snapSize g) s = true <->
  resolve g (seg_a s) <> resolve g (seg_b s).
Proof.
  intros Hreg [a Ha] [b Hb].
  rewrite (resolve_registered _ _ _ Ha), (resolve_registered _ _ _ Hb).
  rewrite accepted_true. split.
  - intros Hk ->. apply Hk. eapply reg_inj; eauto.
  - intros Hab Hk. rewrite Hk in Ha. congruence.
Qed.

(** The prior state of the graph matters to [build] through the snap size
    only. *)
Lemma build_prior_state atan2 sort segs g g' :
  m_snapSize g' = m_snapSize g ->
  build atan2 sort segs g' = build atan2 sort segs g.
Proof.
  intros H. unfold build, buildGraph. now rewrite (clear_clear _ _ H).
Qed.

(** ** Comparisons of doubles *)

Lemma SFcompare_antisym (a b : double) c :
  SFcompare a b = Some c -> SFcompare b a = Some (CompOpp c).
Proof.
  destruct a as [sa|sa| |sa ma ea], b as [sb|sb| |sb mb eb]; cbn;
    try discriminate; intros [= <-];
    try (destruct sa; reflexivity); try (destruct sb; reflexivity);
    try (destruct sa, sb; reflexivity).
  destruct sa, sb; try reflexivity;
    rewrite (Z.compare_antisym ea eb);
    destruct (ea ?= eb); cbn; try reflexivity;
    now rewrite (Pos.compare_cont_antisym ma mb Eq).
Qed.

(** A double that is neither NaN nor [<= 0] is its own absolute value. *)
Lemma fabs_positive (a : double) :
  leb a zero = false -> is_nan a = false -> fabs a = a.
Proof.
  unfold leb, SFleb, fabs. destruct a as [s|s| |s m e]; cbn; try easy;
    destruct s; easy.
Qed.

(** Passing both area filters means [areaTolerance <= area], unless the
    area is NaN. *)
Lemma area_filters (a : double) :
  ltb (fabs a) areaTolerance = false -> leb a zero = false ->
  is_nan a = false -> leb areaTolerance a = true /\ ltb zero a = true.
Proof.
  intros Hlt Hle Hnan. split; [|destruct a as [[]|[]| |[]]; easy].
  rewrite (fabs_positive a Hle Hnan) in Hlt.
  unfold ltb, SFltb in Hlt. unfold leb, SFleb.
  assert (exists m e, areaTolerance = S754_finite false m e) as (m & e & Ht)
    by (unfold areaTolerance, micro; eauto).
  rewrite Ht in *.
  destruct (SFcompare a (S754_finite false m e)) as [c|] eqn:Hc.
  - rewrite (SFcompare_antisym _ _ _ Hc). now destruct c.
  - destruct a; cbn in Hc; first [discriminate Hc | discriminate Hnan].
Qed.

(** * Claims of the specification *)

(** ** Node registry *)

(** C2 (as stated, refuted): with the default grid size the points (0,0) and
    (0.0005,0.0005) do not resolve to the same node id. *)
Lemma half_cell_point_not_merged :
  ~ (fst (resolve_both newRoomGraph (pt 0 0) (pt_dec 5 10000)) =
     snd (resolve_both newRoomGraph (pt 0 0) (pt_dec 5 10000))
     /\
     fst (resolve_both newRoomGraph (pt 0 0) (pt_dec 1 100)) <>
     snd (resolve_both newRoomGraph (pt 0 0) (pt_dec 1 100))).
Proof. vm_compute. intros [H _]. discriminate H. Qed.

(** C2 (amended): with the default grid size 1e-3, (0,0) has snap key
    (0,0) and (0.0005,0.0005) has snap key (1,1), since 0.0005 / 1e-3 + 0.5
    is 1.0 in binary64; the two points resolve to distinct node ids, and so
    do (0,0) and (0.01,0.01). A point inside the half cell, (0.0004,0.0004),
    resolves to the node of (0,0). *)
Theorem snap_examples :
  snapKey (m_snapSize newRoomGraph) (pt 0 0) = (0, 0) /\
  snapKey (m_snapSize newRoomGraph) (pt_dec 5 10000) = (1, 1) /\
  resolve_both newRoomGraph (pt 0 0) (pt_dec 5 10000) = (0, 1) /\
  resolve_both newRoomGraph (pt 0 0) (pt_dec 1 100) = (0, 1) /\
  resolve_both newRoomGraph (pt 0 0) (pt_dec 4 10000) = (0, 0).
Proof. vm_compute. repeat split. Qed.

(** ** Face-walk relation *)

(** C3: for a half-edge [e] whose target [B] is a node, [buildNextRelations]
    changes at most the [next] field of [e]; when the twin of [e] first
    occurs at position [p] of the outgoing list of [B], of length [n], the
    new [next] is the entry at position [(p - 1) mod n]; when the list is
    empty or does not hold the twin, [next] is left as it was. *)
Theorem next_is_entry_before_twin g i e nodeB :
  vec_at (m_edges g) i = Some e ->
  vec_at (m_nodes g) (he_to e) = Some nodeB ->
  exists e',
    vec_at (m_edges (buildNextRelations g)) i = Some e' /\
    e' = set_next (he_next e') e /\
    (forall p,
        vec_at (outgoingEdges nodeB) p = Some (he_twin e) ->
        (forall q, 0 <= q < p ->
                   vec_at (outgoingEdges nodeB) q <> Some (he_twin e)) ->
        vec_at (outgoingEdges nodeB)
          ((p - 1) mod vec_size (outgoingEdges nodeB)) = Some (he_next e')) /\
    (outgoingEdges nodeB = [] \/ he_twin e ∉ outgoingEdges nodeB ->
     he_next e' = he_next e).
Proof.
  intros He HB. exists (nextRelation (m_nodes g) e).
  destruct (nextRelation_spec (m_nodes g) e nodeB HB) as [Hnot Hfound].
  split; [cbn; apply vec_at_fmap_Some; eauto|].
  split.
  { destruct (nextRelation_fields (m_nodes g) e) as (H1 & H2 & H3 & H4 & H5 & H6).
    destruct (nextRelation (m_nodes g) e), e. cbn in *. now subst. }
  split.
  - intros p Hp Hfirst. destruct (Hfound p Hp Hfirst) as (f & Hf & ->). easy.
  - intros Hcase. rewrite Hnot; [easy|].
    destruct Hcase as [->|H]; [apply not_elem_of_nil|easy].
Qed.

Lemma next_is_entry_before_twin_witness :
  exists e',
    vec_at (m_edges (buildNextRelations squareSorted)) 0 = Some e' /\
    he_next e' = 2.
Proof.
  destruct (next_is_entry_before_twin squareSorted 0
              (mkHalfEdge 0 0 1 1 (-1) false zero)
              (mkNode 1 (pt 10 0) [2; 1]))
    as (e' & He' & _ & Hfound & _); [reflexivity..|].
  exists e'. split; [exact He'|].
  specialize (Hfound 1 eq_refl).
  assert (Hsome : Some 2 = Some (he_next e')).
  { apply Hfound. intros q Hq.
    assert (q = 0) as -> by lia. discriminate. }
  now inversion Hsome.
Defined.

Section Claims.

Variable atan2 : double -> double -> double.
Variable sort : (Z -> Z -> bool) -> list Z -> list Z.
Hypothesis sort_perm : forall cmp l, sort cmp l ≡ₚ l.

(** The edge arrays of the graph [build] returns are well formed. *)
Lemma build_edges_wf segs g :
  exists g',
    build atan2 sort segs g = Returned g' /\
    edges_wf (m_nodes g') (m_edges g').
Proof.
  destruct (build_trace_spec atan2 sort sort_perm segs g)
    as (g' & walks & Htrace & Hbuild & _).
  exists g'. split; [easy|].
  unfold build_trace in Htrace. destruct segs as [|s segs].
  { inversion Htrace; subst. apply clear_inv. }
  destruct (buildGraph_spec atan2 sort sort_perm (s :: segs) g)
    as (g1 & g3 & _ & _ & Hg3 & _ & Hwf & _).
  rewrite Hg3 in Htrace. cbn in Htrace.
  destruct (walk_built atan2 sort sort_perm _ _ _ Hg3)
    as (g'' & walks' & Hrun & _ & Hunm & _).
  rewrite Hrun in Htrace by lia. inversion Htrace; subst.
  destruct (walkCycles_trace_links _ _ _ _ (Hrun _ (Nat.lt_succ_diag_r _)))
    as (_ & _ & -> & _).
  eapply edges_wf_unmark; eauto.
Qed.

(** C8: in the graph that steps 1 to 3 of [build] produce, the [next] of
    every half-edge is unset or the index of a half-edge, and is not the
    id of the edge itself. *)
Theorem next_valid_not_self segs g :
  exists g3,
    buildGraph atan2 sort segs g = Returned g3 /\
    forall i e,
      vec_at (m_edges g3) i = Some e ->
      (he_next e = -1 \/ 0 <= he_next e < vec_size (m_edges g3)) /\
      he_next e <> he_id e.
Proof.
  destruct (buildGraph_spec atan2 sort sort_perm segs g)
    as (g1 & g3 & _ & _ & Hg3 & _ & _ & Hlinks & _).
  exists g3. split; [easy|]. intros i e He.
  destruct (lw_edge _ _ Hlinks i e He) as (-> & _ & Hn & Hne). auto.
Qed.

(** C9: [build] returns on every input, from every prior state; a second
    [build] of the same input on the state the first one returned gives
    the same room list, and indeed the same state; nothing of the prior
    state but its snap size reaches the result. *)
Theorem build_twice_same segs g :
  exists g1 g2,
    build atan2 sort segs g = Returned g1 /\
    build atan2 sort segs g1 = Returned g2 /\
    getRooms g2 = getRooms g1 /\ g2 = g1 /\
    forall g', m_snapSize g' = m_snapSize g ->
               build atan2 sort segs g' = Returned g1.
Proof.
  destruct (build_trace_spec atan2 sort sort_perm segs g)
    as (g1 & walks & _ & Hb & _ & Hs & _).
  exists g1, g1. split; [easy|].
  split; [now rewrite (build_prior_state _ _ _ g g1)|].
  do 2 (split; [easy|]).
  intros g' Hg'. now rewrite (build_prior_state _ _ _ g g').
Qed.

End Claims.

(** ** Cycle walker *)

Lemma roomOf_Some poly r :
  roomOf poly = Some r ->
  polygon r = poly /\ (3 <= length poly)%nat /\
  ltb (fabs (computeSignedArea poly)) areaTolerance = false /\
  leb (computeSignedArea poly) zero = false /\
  area r = fabs (computeSignedArea poly) /\
  center r = computeCentroid poly (computeSignedArea poly).
Proof.
  unfold roomOf. destruct (Nat.ltb_spec (length poly) 3) as [|Hlen]; [easy|].
  destruct (ltb _ _) eqn:Hlt; [easy|]. destruct (leb _ _) eqn:Hle; [easy|].
  intros [= <-].
  exact (conj eq_refl (conj Hlen (conj eq_refl (conj eq_refl (conj eq_refl eq_refl))))).
Qed.

(** C4 (as stated, refuted): [build] returns, for a rectangle whose sides
    are the doubles [1024 * 1e-6] and [1 / 1024], a room whose signed area
    is the tolerance itself, not more. *)
Lemma room_area_at_tolerance :
  exists g' r,
    build atan2_axis insertion_sort thin_rectangle newRoomGraph = Returned g' /\
    getRooms g' = [r] /\
    computeSignedArea (polygon r) = areaTolerance /\
    ltb areaTolerance (computeSignedArea (polygon r)) = false.
Proof.
  do 2 eexists.
  split; [vm_compute; reflexivity|].
  split; [vm_compute; reflexivity|].
  split; vm_compute; reflexivity.
Qed.

(** C4 (amended): every room [build] returns has a polygon of at least 3
    vertices, and the signed area that [computeSignedArea] computes for
    that polygon in binary64 passed both filters: its absolute value is not
    below the tolerance 1e-6 and it is not [<= 0]; the stored area is that
    absolute value. Unless the computed area is NaN, it is at least the
    tolerance (the tolerance itself included) and positive. This is about
    the computed value; the orientation of the polygon is not part of the
    statement. *)
Theorem rooms_pass_area_filters atan2 sort segs g g' r :
  build atan2 sort segs g = Returned g' ->
  r ∈ getRooms g' ->
  (3 <= length (polygon r))%nat /\
  ltb (fabs (computeSignedArea (polygon r))) areaTolerance = false /\
  leb (computeSignedArea (polygon r)) zero = false /\
  area r = fabs (computeSignedArea (polygon r)) /\
  (is_nan (computeSignedArea (polygon r)) = false ->
   leb areaTolerance (computeSignedArea (polygon r)) = true /\
   ltb zero (computeSignedArea (polygon r)) = true).
Proof.
  intros Hb Hr. unfold getRooms in Hr.
  unfold build in Hb. destruct segs as [|s segs].
  { inversion Hb; subst. cbn in Hr. now apply elem_of_nil in Hr. }
  unfold buildGraph in Hb.
  destruct (buildNodesAndEdges_spec atan2 (s :: segs) (clear g) (clear_inv g))
    as (g1 & Hg1 & _ & _ & Hrooms1 & _).
  rewrite Hg1 in Hb. cbn [mbind outcome_bind mret outcome_ret] in Hb.
  unfold walkCycles in Hb.
  destruct (walkCycles_trace _ _) as [[g'' walks]| |] eqn:Hw; cbn in Hb;
    try discriminate.
  inversion Hb; subst g''.
  destruct (walkCycles_trace_links _ _ _ _ Hw) as (Hrooms & Hall & _).
  cbn in Hrooms. rewrite Hrooms1 in Hrooms. cbn in Hrooms.
  rewrite Hrooms in Hr. apply list_elem_of_omap in Hr as (w & Hw_in & Hwr).
  rewrite Forall_forall in Hall. rewrite (Hall w Hw_in) in Hwr.
  apply roomOf_Some in Hwr as (-> & Hlen & Hlt & Hle & Harea & _).
  do 4 (split; [easy|]). intros Hnan. now apply area_filters.
Qed.

Lemma rooms_pass_area_filters_witness :
  let r := mkRoom [pt 0 0; pt 10 0; pt 10 10; pt 0 10] (pt 5 5) (of_Z 100) in
  (3 <= length (polygon r))%nat /\
  ltb (fabs (computeSignedArea (polygon r))) areaTolerance = false /\
  leb (computeSignedArea (polygon r)) zero = false /\
  area r = fabs (computeSignedArea (polygon r)) /\
  (is_nan (computeSignedArea (polygon r)) = false ->
   leb areaTolerance (computeSignedArea (polygon r)) = true /\
   ltb zero (computeSignedArea (polygon r)) = true).
Proof.
  intros r.
  eapply (rooms_pass_area_filters atan2_axis insertion_sort square
            newRoomGraph _ r).
  - vm_compute. reflexivity.
  - vm_compute. apply list_elem_of_here.
Defined.

(** The sign of the computed area is not the orientation of the polygon.
    For the square [far_square], whose coordinates are multiples of 2^-10,
    [build] returns one room; its polygon runs clockwise, twice its exact
    area being -32 units of 2^-20, and the area computed for it is
    positive. *)
Lemma far_square_clockwise_room :
  exists g' r zs,
    build atan2_axis insertion_sort far_square newRoomGraph = Returned g' /\
    getRooms g' = [r] /\
    polygon r = [far_pt 7 39; far_pt 3 39; far_pt 3 43; far_pt 7 43] /\
    scaled_pt 10 <$> polygon r = Some <$> zs /\
    exact_twice_area zs = -32 /\
    ltb zero (computeSignedArea (polygon r)) = true.
Proof.
  do 2 eexists.
  exists [(2 ^ 30 + 7, 2 ^ 30 + 39); (2 ^ 30 + 3, 2 ^ 30 + 39);
          (2 ^ 30 + 3, 2 ^ 30 + 43); (2 ^ 30 + 7, 2 ^ 30 + 43)].
  split; [vm_compute; reflexivity|].
  split; [vm_compute; reflexivity|].
  split; [vm_compute; reflexivity|].
  split; [vm_compute; reflexivity|].
  split; vm_compute; reflexivity.
Qed.

Section WalkClaims.

Variable atan2 : double -> double -> double.
Variable sort : (Z -> Z -> bool) -> list Z -> list Z.
Hypothesis sort_perm : forall cmp l, sort cmp l ≡ₚ l.


(** C10: on the graph that steps 1 to 3 of [build] produce, the cycle
    walker returns, and returns the same state whatever bound above the
    number of half-edges is put on the passes of an inner loop; every
    entry into the body of the inner loop marks one half-edge that was not
    marked, so the entries over all walks number at most the
    half-edges. *)
Theorem walkCycles_terminates segs g :
  exists g3 g' walks,
    buildGraph atan2 sort segs g = Returned g3 /\
    (forall fuel, (length (m_edges g3) < fuel)%nat ->
                  walkCycles_trace fuel g3 = Returned (g', walks)) /\
    walkCycles g3 = Returned g' /\
    (total_iters walks + unused_count (m_edges g')
     = unused_count (m_edges g3))%nat /\
    (total_iters walks <= length (m_edges g3))%nat.
Proof.
  destruct (buildGraph_spec atan2 sort sort_perm segs g)
    as (g1 & g3 & _ & _ & Hg3 & _).
  destruct (walk_built atan2 sort sort_perm _ _ _ Hg3)
    as (g' & walks & Hrun & _ & _ & Hcnt).
  exists g3, g', walks. split; [easy|]. split; [easy|].
  split; [unfold walkCycles; now rewrite Hrun by lia|].
  split; [easy|]. pose proof (unused_count_le (m_edges g3)). lia.
Qed.

Lemma sortOutgoing_two edges nid p a b :
  sortOutgoing sort edges (mkNode nid p [a; b]) = mkNode nid p [a; b] \/
  sortOutgoing sort edges (mkNode nid p [a; b]) = mkNode nid p [b; a].
Proof.
  unfold sortOutgoing. cbn.
  pose proof (sort_perm (EdgeAngleLess edges) [a; b]) as Hp.
  symmetry in Hp. apply Permutation_length_2_inv in Hp as [-> | ->]; auto.
Qed.

(** C5: from a graph with the default snap size, [build] of the four
    segments of the 10 x 10 square returns one room, of area 100.0,
    centroid (5.0, 5.0) and four vertices. *)
Theorem square_one_room g :
  m_snapSize g = milli ->
  exists g' r,
    build atan2 sort square g = Returned g' /\
    getRooms g' = [r] /\
    area r = of_Z 100 /\ center r = pt 5 5 /\
    polygon r = [pt 0 0; pt 10 0; pt 10 10; pt 0 10] /\
    length (polygon r) = 4%nat.
Proof.
  intros Hsnap.
  rewrite (build_prior_state atan2 sort square newRoomGraph g Hsnap).
  unfold build, buildGraph, square.
  destruct (buildNodesAndEdges atan2 _ (clear newRoomGraph))
    as [[nodes edges rooms idx snap]| |] eqn:E;
    apply (f_equal (fun o => match o with
                             | Returned g1 =>
                                 Some (m_nodes g1, m_edges g1, m_rooms g1,
                                       m_snapSize g1)
                             | _ => None
                             end)) in E;
    vm_compute in E; try discriminate.
  injection E as <- <- <- <-. cbn [mbind outcome_bind mret outcome_ret].
  unfold sortOutgoingByAngle.
  cbn [m_nodes m_edges m_rooms m_nodeIndex m_snapSize fmap list_fmap].
  repeat match goal with
         | |- context [sortOutgoing sort ?es (mkNode ?i ?p [?a; ?b])] =>
             destruct (sortOutgoing_two es i p a b) as [-> | ->]
         end;
    (do 2 eexists; split; [vm_compute; reflexivity|];
     split; [reflexivity|]; cbn [area center polygon];
     split; [vm_compute; reflexivity|];
     split; [vm_compute; reflexivity|];
     split; [vm_compute; reflexivity|reflexivity]).
Qed.

End WalkClaims.

(** ** Instances on sample inputs

    The theorems above that depend on [std::sort] permuting its range,
    taken at insertion sort, at [atan2_axis] and at the sample inputs. *)


Lemma square_one_room_witness :
  exists g' r,
    build atan2_axis insertion_sort square newRoomGraph = Returned g' /\
    getRooms g' = [r] /\
    area r = of_Z 100 /\ center r = pt 5 5 /\
    polygon r = [pt 0 0; pt 10 0; pt 10 10; pt 0 10] /\
    length (polygon r) = 4%nat.
Proof.
  exact (square_one_room atan2_axis insertion_sort insertion_sort_perm
           newRoomGraph eq_refl).
Defined.

Lemma next_valid_not_self_witness :
  exists g3,
    buildGraph atan2_axis insertion_sort square newRoomGraph = Returned g3 /\
    forall i e,
      vec_at (m_edges g3) i = Some e ->
      (he_next e = -1 \/ 0 <= he_next e < vec_size (m_edges g3)) /\
      he_next e <> he_id e.
Proof.
  exact (next_valid_not_self atan2_axis insertion_sort insertion_sort_perm
           square newRoomGraph).
Defined.

Lemma build_twice_same_witness :
  exists g1 g2,
    build atan2_axis insertion_sort square newRoomGraph = Returned g1 /\
    build atan2_axis insertion_sort square g1 = Returned g2 /\
    getRooms g2 = getRooms g1 /\ g2 = g1 /\
    forall g', m_snapSize g' = m_snapSize newRoomGraph ->
               build atan2_axis insertion_sort square g' = Returned g1.
Proof.
  exact (build_twice_same atan2_axis insertion_sort insertion_sort_perm
           square newRoomGraph).
Defined.

Lemma walkCycles_terminates_witness :
  exists g3 g' walks,
    buildGraph atan2_axis insertion_sort square newRoomGraph = Returned g3 /\
    (forall fuel, (length (m_edges g3) < fuel)%nat ->
                  walkCycles_trace fuel g3 = Returned (g', walks)) /\
    walkCycles g3 = Returned g' /\
    (total_iters walks + unused_count (m_edges g')
     = unused_count (m_edges g3))%nat /\
    (total_iters walks <= length (m_edges g3))%nat.
Proof.
  exact (walkCycles_terminates atan2_axis insertion_sort insertion_sort_perm
           square newRoomGraph).
Defined.


(** * Further properties of the code *)

(** ** Geometry *)

Lemma binary_round_aux_abs sx mx ex lx :
  SFabs (binary_round_aux prec emax sx mx ex lx)
  = binary_round_aux prec emax false mx ex lx.
Proof.
  unfold binary_round_aux.
  destruct (shr_fexp prec emax mx ex lx) as [mrs' e'].
  destruct (shr_fexp prec emax _ e' loc_Exact) as [mrs'' e''].
  destruct (shr_m mrs''); [reflexivity| |reflexivity].
  now destruct (_ <=? _).
Qed.

Lemma binary_normalize_abs_opp z e :
  SFabs (binary_normalize prec emax (- z) e false)
  = SFabs (binary_normalize prec emax z e false).
Proof.
  destruct z as [|m|m]; [reflexivity|..];
    [change (- Z.pos m) with (Z.neg m) | change (- Z.neg m) with (Z.pos m)];
    cbn [binary_normalize]; unfold binary_round;
    destruct (shl_align _ _ _) as [mz ez]; now rewrite !binary_round_aux_abs.
Qed.

(** [a - b] and [b - a] differ by their sign at most. *)
Lemma sub_abs_sym (a b : double) : fabs (a - b)%D = fabs (b - a)%D.
Proof.
  unfold fabs, sub.
  destruct a as [sa|sa| |sa ma ea], b as [sb|sb| |sb mb eb];
    try reflexivity;
    try (destruct sa, sb; reflexivity).
  cbn [SFsub]. rewrite (Z.min_comm eb ea).
  rewrite <- binary_normalize_abs_opp. f_equal. f_equal. lia.
Qed.

(** A square depends on the absolute value only. *)
Lemma mul_self_abs (a : double) : (a * a)%D = (fabs a * fabs a)%D.
Proof. destruct a as [[]|[]| |[] m e]; reflexivity. Qed.

Lemma mul_self_sub_sym (a b : double) :
  ((a - b) * (a - b))%D = ((b - a) * (b - a))%D.
Proof.
  now rewrite (mul_self_abs (a - b)%D), (mul_self_abs (b - a)%D), sub_abs_sym.
Qed.

Lemma sub_self_zero (a : double) :
  is_finite a = true -> exists s, (a - a)%D = S754_zero s.
Proof.
  destruct a as [s|s| |s m e]; try discriminate; intros _.
  - destruct s; eauto.
  - unfold sub. cbn [SFsub]. rewrite Z.sub_diag. cbn. eauto.
Qed.

(** X1: the distance of two points does not depend on their order, whatever
    the coordinates (infinities and NaN included), and neither does
    [almostEqual]. *)
Theorem distance_symmetric p q :
  distance p q = distance q p /\
  forall eps, almostEqual p q eps = almostEqual q p eps.
Proof.
  assert (H : distance p q = distance q p).
  { unfold distance. cbn zeta.
    now rewrite (mul_self_sub_sym (vx p) (vx q)),
      (mul_self_sub_sym (vy p) (vy q)). }
  split; [exact H|]. intros eps. unfold almostEqual. now rewrite H.
Qed.

(** X2: a point is almost equal to itself exactly when both coordinates are
    finite and the tolerance is not negative (nor NaN); with an infinite
    or NaN coordinate the distance of a point to itself is NaN and the test
    fails. *)
Theorem almostEqual_self p eps :
  almostEqual p p eps
  = is_finite (vx p) && is_finite (vy p) && leb zero eps.
Proof.
  unfold almostEqual, distance. cbn zeta.
  destruct (is_finite (vx p)) eqn:Hx.
  - destruct (sub_self_zero _ Hx) as [sx ->].
    destruct (is_finite (vy p)) eqn:Hy.
    + destruct (sub_self_zero _ Hy) as [sy ->]. now destruct sx, sy.
    + destruct (vy p) as [s|[]| |s m e]; try discriminate; now destruct sx.
  - destruct (vx p) as [s|[]| |s m e]; try discriminate; reflexivity.
Qed.

(** ** Node registry *)

(** X3: in a well-formed registry, once [p] has been resolved, a point [q]
    resolves to the node of [p] exactly when it has the snap key of [p], and
    in that case resolving [q] leaves the graph as it is. *)
Theorem resolve_same_node_iff_same_key p q g :
  registry_wf g ->
  (resolve (snd (findOrCreateNode p g)) q = resolve g p <->
   snapKey (m_snapSize g) q = snapKey (m_snapSize g) p) /\
  (snapKey (m_snapSize g) q = snapKey (m_snapSize g) p ->
   findOrCreateNode q (snd (findOrCreateNode p g))
   = (resolve g p, snd (findOrCreateNode p g))).
Proof.
  intros Hwf. unfold resolve.
  destruct (findOrCreateNode p g) as [a g1] eqn:Ep. cbn [fst snd].
  destruct (findOrCreateNode_spec _ _ _ _ Ep Hwf)
    as (Hwf1 & Hka & _ & _ & _ & Hs & _).
  unfold findOrCreateNode. rewrite Hs.
  destruct (m_nodeIndex g1 !! snapKey (m_snapSize g) q) as [v|] eqn:Hq;
    cbn [fst].
  - split.
    + split.
      * intros ->. eapply reg_inj; eauto.
      * intros Hk. rewrite Hk in Hq. congruence.
    + intros Hk. rewrite Hk in Hq. congruence.
  - pose proof (reg_range _ Hwf1 _ _ Hka). split.
    + split; [lia|]. intros Hk. rewrite Hk in Hq. congruence.
    + intros Hk. rewrite Hk in Hq. congruence.
Qed.

Lemma resolve_same_node_iff_same_key_witness :
  (resolve (snd (findOrCreateNode (pt 0 0) newRoomGraph)) (pt_dec 4 10000)
   = resolve newRoomGraph (pt 0 0) <->
   snapKey (m_snapSize newRoomGraph) (pt_dec 4 10000)
   = snapKey (m_snapSize newRoomGraph) (pt 0 0)) /\
  (snapKey (m_snapSize newRoomGraph) (pt_dec 4 10000)
   = snapKey (m_snapSize newRoomGraph) (pt 0 0) ->
   findOrCreateNode (pt_dec 4 10000) (snd (findOrCreateNode (pt 0 0) newRoomGraph))
   = (resolve newRoomGraph (pt 0 0), snd (findOrCreateNode (pt 0 0) newRoomGraph))).
Proof.
  apply (resolve_same_node_iff_same_key (pt 0 0) (pt_dec 4 10000) newRoomGraph).
  exact (bi_reg _ (clear_inv newRoomGraph)).
Defined.

(** ** Face-walk relation *)

(** What the loop body of [buildNextRelations] does to an edge depends on
    the [to] and [twin] of the edge only. *)
Lemma nextRelation_cases nodes e :
  (nextRelation nodes e = e /\
   forall e', he_to e' = he_to e -> he_twin e' = he_twin e ->
              nextRelation nodes e' = e') \/
  (exists f,
      nextRelation nodes e = set_next f e /\
      forall e', he_to e' = he_to e -> he_twin e' = he_twin e ->
                 nextRelation nodes e' = set_next f e').
Proof.
  unfold nextRelation.
  destruct ((he_to e <? 0) || (he_to e >=? vec_size nodes)) eqn:Hrange.
  { left. split; [easy|]. intros e' -> _. now rewrite Hrange. }
  destruct (vec_at nodes (he_to e)) as [node|] eqn:Hnode.
  2:{ left. split; [easy|]. intros e' -> _. now rewrite Hrange, Hnode. }
  destruct (outgoingEdges node) as [|o out] eqn:Hout.
  { left. split; [easy|]. intros e' -> _. now rewrite Hrange, Hnode, Hout. }
  destruct (find_pos (he_twin e) (o :: out) 0 <? 0) eqn:Hpos.
  { left. split; [easy|]. intros e' -> ->. now rewrite Hrange, Hnode, Hout, Hpos. }
  destruct (vec_at (o :: out) _) as [f|] eqn:Hf.
  - right. exists f. split; [easy|].
    intros e' -> ->. now rewrite Hrange, Hnode, Hout, Hpos, Hf.
  - left. split; [easy|].
    intros e' -> ->. now rewrite Hrange, Hnode, Hout, Hpos, Hf.
Qed.

(** X4: [buildNextRelations] is idempotent, on any graph: a second pass
    changes nothing. It touches the [next] fields only: nodes, rooms,
    registry and snap size are kept, and so are the other fields of every
    half-edge. *)
Theorem buildNextRelations_idempotent g :
  buildNextRelations (buildNextRelations g) = buildNextRelations g /\
  m_nodes (buildNextRelations g) = m_nodes g /\
  m_rooms (buildNextRelations g) = m_rooms g /\
  m_nodeIndex (buildNextRelations g) = m_nodeIndex g /\
  m_snapSize (buildNextRelations g) = m_snapSize g /\
  length (m_edges (buildNextRelations g)) = length (m_edges g) /\
  forall i e,
    vec_at (m_edges g) i = Some e ->
    exists e',
      vec_at (m_edges (buildNextRelations g)) i = Some e' /\
      e' = set_next (he_next e') e.
Proof.
  split; [|do 4 (split; [reflexivity|]); split].
  - unfold buildNextRelations. cbn [m_nodes m_edges m_rooms m_nodeIndex m_snapSize].
    f_equal. rewrite <- list_fmap_compose. apply list_fmap_ext.
    intros i e _. cbn.
    destruct (nextRelation_fields (m_nodes g) e) as (_ & _ & Hto & Htw & _).
    destruct (nextRelation_cases (m_nodes g) e) as [[He Hsame]|(f & He & Hsame)].
    + now apply Hsame.
    + rewrite (Hsame _ Hto Htw), He. reflexivity.
  - cbn [buildNextRelations m_edges]. apply length_fmap.
  - intros i e He. exists (nextRelation (m_nodes g) e).
    split; [cbn; apply vec_at_fmap_Some; eauto|].
    destruct (nextRelation_fields (m_nodes g) e) as (H1 & H2 & H3 & H4 & H5 & H6).
    destruct (nextRelation (m_nodes g) e), e. cbn in *. now subst.
Qed.

(** ** Cycle walker on any graph state *)

Lemma walkLoop_frame nodes s fuel :
  forall es c poly it es' poly' ex n,
    walkLoop fuel nodes s es c poly it = Returned (es', poly', ex, n) ->
    unmark <$> es' = unmark <$> es /\
    (forall j, used_at es j -> used_at es' j) /\
    (length poly' + it <= length poly + n)%nat /\
    (forall p, p ∈ poly' -> p ∈ poly \/ exists nd, nd ∈ nodes /\ pos nd = p).
Proof.
  induction fuel as [|fuel IH]; intros es c poly it es' poly' ex n Hrun;
    [discriminate|].
  cbn [walkLoop] in Hrun.
  destruct (vec_get es c) as [e| |]; cbn in Hrun; try discriminate.
  destruct (he_used e).
  { inversion Hrun; subst. repeat split; auto; lia. }
  destruct (_ || _).
  { inversion Hrun; subst. split; [apply unmark_alter|].
    split; [intros j; apply used_at_mark_mono|]. split; [lia|auto]. }
  unfold vec_get in Hrun.
  destruct (vec_at nodes (he_from e)) as [node|] eqn:Hnode; cbn in Hrun;
    try discriminate.
  assert (Hin : node ∈ nodes).
  { apply vec_at_Some in Hnode as [_ Hnode]. eapply list_elem_of_lookup_2, Hnode. }
  assert (Hpoly : forall p, p ∈ poly ++ [pos node] ->
                            p ∈ poly \/ exists nd, nd ∈ nodes /\ pos nd = p).
  { intros p [Hp|Hp%list_elem_of_singleton]%elem_of_app; [auto|].
    right. exists node. auto. }
  destruct (he_next e <? 0).
  { inversion Hrun; subst. split; [apply unmark_alter|].
    split; [intros j; apply used_at_mark_mono|].
    split; [rewrite length_app; cbn; lia|auto]. }
  destruct (he_next e =? s).
  { inversion Hrun; subst. split; [apply unmark_alter|].
    split; [intros j; apply used_at_mark_mono|].
    split; [rewrite length_app; cbn; lia|auto]. }
  apply IH in Hrun as (Hunm & Hmono & Hlen & Hpts).
  split; [rewrite Hunm; apply unmark_alter|].
  split; [intros j Hj; now apply Hmono, used_at_mark_mono|].
  split; [rewrite length_app in Hlen; cbn in Hlen; lia|].
  intros p Hp. destruct (Hpts p Hp) as [H|H]; auto.
Qed.

Lemma walkFrom_frame fuel :
  forall idxs g trace g' trace',
    walkFrom fuel idxs g trace = Returned (g', trace') ->
    unmark <$> m_edges g' = unmark <$> m_edges g /\
    (forall j, used_at (m_edges g) j -> used_at (m_edges g') j) /\
    exists walks,
      trace' = trace ++ walks /\
      Forall (fun w => (length (w_poly w) <= w_iters w)%nat /\
                       forall p, p ∈ w_poly w ->
                                 exists nd, nd ∈ m_nodes g /\ pos nd = p)
             walks.
Proof.
  induction idxs as [|i rest IH]; intros g trace g' trace' Hrun.
  - cbn in Hrun. inversion Hrun; subst. do 2 (split; [easy|]).
    exists []. now rewrite app_nil_r.
  - cbn [walkFrom] in Hrun.
    destruct (vec_get (m_edges g) (Z.of_nat i)) as [start| |]; cbn in Hrun;
      try discriminate.
    destruct (he_used start); [now apply IH|].
    destruct (walkLoop _ _ _ _ _ _ _) as [[[[es' poly] ex] n]| |] eqn:Hw;
      cbn in Hrun; try discriminate.
    apply walkLoop_frame in Hw as (Hunm & Hmono & Hlen & Hpts).
    apply IH in Hrun as (Hunm' & Hmono' & walks & -> & Hall).
    cbn [with_walk m_edges m_nodes] in *.
    split; [congruence|]. split; [auto|].
    eexists (_ :: walks). rewrite <- app_assoc. split; [reflexivity|].
    constructor; [|easy]. cbn. split; [cbn in Hlen; lia|].
    intros p Hp. destruct (Hpts p Hp) as [H|H]; [|easy].
    now apply elem_of_nil in H.
Qed.

(** X5: on any graph state, [walkCycles] comes to an end (it returns, or
    stops on an index outside the edge array); when it returns, it has only
    set [used] flags and appended rooms: nodes, registry and snap size are
    kept, no other field of a half-edge has changed, no flag was reset and
    the rooms present before are still there, in front. *)
Theorem walkCycles_frame g :
  walkCycles g <> OutOfFuel /\
  forall g',
    walkCycles g = Returned g' ->
    m_nodes g' = m_nodes g /\ m_nodeIndex g' = m_nodeIndex g /\
    m_snapSize g' = m_snapSize g /\
    unmark <$> m_edges g' = unmark <$> m_edges g /\
    (forall j, used_at (m_edges g) j -> used_at (m_edges g') j) /\
    exists new, m_rooms g' = m_rooms g ++ new.
Proof.
  split; [apply walkCycles_never_out_of_fuel|].
  intros g' Hrun. unfold walkCycles in Hrun.
  destruct (walkCycles_trace _ g) as [[g'' walks]| |] eqn:Hw; cbn in Hrun;
    try discriminate.
  inversion Hrun; subst g''. unfold walkCycles_trace in Hw.
  destruct (walkFrom_rooms _ _ _ _ _ _ Hw) as (ws & _ & _ & Hrooms & Hn & Hi & Hs).
  destruct (walkFrom_frame _ _ _ _ _ _ Hw) as (Hunm & Hmono & _).
  do 5 (split; [easy|]). eauto.
Qed.

(** ** The built graph *)

Lemma succ_prev (q n : Z) :
  0 <= q < n -> ((q + 1) mod n - 1) mod n = q.
Proof.
  intros H. destruct (Z.eq_dec (q + 1) n) as [Heq|Hne].
  - rewrite Heq, Z_mod_same_full.
    replace (0 - 1) with (n - 1 + (-1) * n) by lia.
    rewrite Z_mod_plus_full, Z.mod_small by lia. lia.
  - rewrite (Z.mod_small (q + 1)) by lia.
    rewrite Z.mod_small by lia. lia.
Qed.

Lemma prev_fixed (p n : Z) :
  0 <= p < n -> ((p - 1) mod n = p <-> n = 1).
Proof.
  intros H. destruct (Z.eq_dec p 0) as [->|Hp].
  - replace (0 - 1) with (n - 1 + (-1) * n) by lia.
    rewrite Z_mod_plus_full, Z.mod_small by lia. lia.
  - rewrite Z.mod_small by lia. lia.
Qed.

Section BuiltGraph.

Variable atan2 : double -> double -> double.
Variable sort : (Z -> Z -> bool) -> list Z -> list Z.
Hypothesis sort_perm : forall cmp l, sort cmp l ≡ₚ l.

(** The graph before the face-walk relation is built: sorted outgoing
    lists, edges as the builder left them. *)
Lemma buildGraph_sorted segs g :
  exists g1 g3,
    buildGraph atan2 sort segs g = Returned g3 /\
    builder_inv g1 /\
    edges_wf (m_nodes g3) (m_edges g1) /\
    m_edges g3 = nextRelation (m_nodes g3) <$> m_edges g1 /\
    m_nodes g3 = sortOutgoing sort (m_edges g1) <$> m_nodes g1.
Proof.
  destruct (buildGraph_spec atan2 sort sort_perm segs g)
    as (g1 & g3 & _ & Hinv & Hg3 & -> & _).
  exists g1, (buildNextRelations (sortOutgoingByAngle sort g1)).
  split; [easy|]. split; [easy|]. split; [|easy].
  apply (edges_wf_sorted sort sort_perm), Hinv.
Qed.

(** X6: in the graph that steps 1 to 3 of [build] produce, [next] is never
    unset: the [next] of every half-edge is a half-edge that leaves the node
    the edge arrives at; no two half-edges share their [next], and every
    half-edge is the [next] of one: [next] is a permutation of the
    half-edges. *)
Theorem next_is_permutation segs g :
  exists g3,
    buildGraph atan2 sort segs g = Returned g3 /\
    (forall i e,
        vec_at (m_edges g3) i = Some e ->
        exists f, vec_at (m_edges g3) (he_next e) = Some f /\
                  he_from f = he_to e) /\
    (forall i j ei ej,
        vec_at (m_edges g3) i = Some ei -> vec_at (m_edges g3) j = Some ej ->
        he_next ei = he_next ej -> i = j) /\
    (forall j f,
        vec_at (m_edges g3) j = Some f ->
        exists i e, vec_at (m_edges g3) i = Some e /\ he_next e = j).
Proof.
  destruct (buildGraph_sorted segs g) as (g1 & g3 & Hg3 & Hinv & Hwf & HE & HN).
  pose proof (links_wf_built _ _ Hwf) as Hlinks. rewrite <- HE in Hlinks.
  exists g3. split; [easy|]. split; [|split; [apply Hlinks|]].
  - intros i e' He'. rewrite HE in He'.
    apply vec_at_fmap_Some in He' as (e & He & ->).
    destruct (nextRelation_built _ _ _ _ Hwf He)
      as (nodeB & p & f & ef & _ & _ & _ & -> & Hef & Hfrom).
    exists (nextRelation (m_nodes g3) ef). cbn [set_next he_next he_to].
    split; [rewrite HE; apply vec_at_fmap_Some; eauto|].
    now destruct (nextRelation_fields (m_nodes g3) ef) as (_ & -> & _).
  - intros j f' Hf'. rewrite HE in Hf'.
    apply vec_at_fmap_Some in Hf' as (f & Hf & ->).
    destruct Hwf as [Hev Hed Htw Hout Hnd].
    destruct (Hed j f Hf) as (_ & _ & Hfrom & _).
    destruct (vec_at_is_Some (m_nodes g3) _ Hfrom) as [nodeB HB].
    assert (Hin : j ∈ outgoingEdges nodeB) by (apply (Hout _ _ _ HB); eauto).
    apply list_elem_of_lookup_1 in Hin as [q Hq].
    pose proof (lookup_lt_Some _ _ _ Hq) as Hqlt.
    set (n := vec_size (outgoingEdges nodeB)).
    assert (Hn : 0 <= Z.of_nat q < n) by (unfold n, vec_size; lia).
    assert (Hp : 0 <= (Z.of_nat q + 1) mod n < n) by (apply Z.mod_pos_bound; lia).
    destruct (vec_at_is_Some (outgoingEdges nodeB) _ Hp) as [t Ht].
    assert (Htin : t ∈ outgoingEdges nodeB).
    { apply vec_at_Some in Ht as [_ Ht]. eapply list_elem_of_lookup_2, Ht. }
    apply (Hout _ _ _ HB) in Htin as (et & Het & Hetfrom).
    pose proof (vec_at_range _ _ _ Het) as Hrt.
    destruct (vec_at_is_Some (m_edges g1) _ (pair_twin_range _ _ Hev Hrt))
      as [e He].
    destruct (Htw _ _ _ Het He) as [_ Hto].
    assert (Hwf : edges_wf (m_nodes g3) (m_edges g1)) by (split; assumption).
    destruct (nextRelation_built _ _ _ _ Hwf He)
      as (nodeB' & p & f' & ef & HB' & Hp' & Hf' & Hnext & _).
    assert (nodeB' = nodeB) as -> by congruence.
    rewrite pair_twin_invol in Hp'.
    assert (p = (Z.of_nat q + 1) mod n) as ->.
    { apply vec_at_Some in Hp' as [Hp0 Hp'], Ht as [Ht0 Ht].
      pose proof (NoDup_lookup _ _ _ _ (Hnd _ _ HB) Hp' Ht). lia. }
    fold n in Hf'. rewrite succ_prev, vec_at_of_nat in Hf' by easy.
    assert (f' = j) as -> by congruence.
    exists (pair_twin t), (nextRelation (m_nodes g3) e).
    split; [rewrite HE; apply vec_at_fmap_Some; eauto|].
    now rewrite Hnext.
Qed.

(** X7: in the graph that steps 1 to 3 of [build] produce, the [next] of a
    half-edge and its twin both leave the node the edge arrives at, and
    [next] is the twin exactly when that node has a single outgoing edge:
    the walk turns back at the end of a dangling segment, and only
    there. *)
Theorem next_is_twin_iff_degree_one segs g :
  exists g3,
    buildGraph atan2 sort segs g = Returned g3 /\
    forall i e nodeB,
      vec_at (m_edges g3) i = Some e ->
      vec_at (m_nodes g3) (he_to e) = Some nodeB ->
      he_twin e ∈ outgoingEdges nodeB /\
      he_next e ∈ outgoingEdges nodeB /\
      (he_next e = he_twin e <-> length (outgoingEdges nodeB) = 1%nat).
Proof.
  destruct (buildGraph_sorted segs g) as (g1 & g3 & Hg3 & Hinv & Hwf & HE & HN).
  exists g3. split; [easy|]. intros i e' nodeB He' HB.
  rewrite HE in He'. apply vec_at_fmap_Some in He' as (e & He & ->).
  destruct (nextRelation_fields (m_nodes g3) e) as (_ & _ & Hto & Htw & _).
  rewrite Hto in HB. rewrite Htw.
  destruct (nextRelation_built _ _ _ _ Hwf He)
    as (nodeB' & p & f & ef & HB' & Hp & Hf & -> & _).
  assert (nodeB' = nodeB) as -> by congruence.
  destruct (ewf_edge _ _ Hwf _ _ He) as (_ & Htwin & _). rewrite Htwin.
  cbn [set_next he_next].
  pose proof (vec_at_range _ _ _ Hp) as Hr.
  apply vec_at_Some in Hp as [Hp0 Hp], Hf as [Hf0 Hf].
  split; [eapply list_elem_of_lookup_2, Hp|].
  split; [eapply list_elem_of_lookup_2, Hf|].
  pose proof (prev_fixed p (vec_size (outgoingEdges nodeB)) Hr) as Hfix.
  unfold vec_size in *. split.
  - intros ->.
    pose proof (NoDup_lookup _ _ _ _ (ewf_nodup _ _ Hwf _ _ HB) Hf Hp). lia.
  - intros Hlen.
    assert (Heq : (p - 1) mod Z.of_nat (length (outgoingEdges nodeB)) = p)
      by (apply Hfix; lia).
    rewrite Heq in Hf. congruence.
Qed.

End BuiltGraph.

(** ** The half-edge builder: nodes, registry and segments *)

Lemma vec_at_app_left {A} (v w : list A) i a :
  vec_at v i = Some a -> vec_at (v ++ w) i = Some a.
Proof.
  intros H. rewrite vec_at_app. pose proof (vec_at_range _ _ _ H).
  destruct (Z.ltb_spec i (vec_size v)); [easy|lia].
Qed.

Lemma node_core_push eid a (nodes : list Node) :
  node_core <$> vec_alter (push_out eid) a nodes = node_core <$> nodes.
Proof.
  unfold vec_alter. destruct (a <? 0); [easy|].
  rewrite (list_fmap_alter node_core (push_out eid) id).
  - now apply list_alter_id.
  - apply Forall_forall. intros. reflexivity.
Qed.

Lemma node_core_sorted sort edges (nodes : list Node) :
  node_core <$> (sortOutgoing sort edges <$> nodes) = node_core <$> nodes.
Proof.
  rewrite <- list_fmap_compose. apply list_fmap_ext. intros i n _. cbn.
  unfold sortOutgoing. now destruct (_ <=? _)%nat.
Qed.

Lemma node_core_lookup (nodes nodes' : list Node) v n' :
  node_core <$> nodes' = node_core <$> nodes -> vec_at nodes' v = Some n' ->
  exists n, vec_at nodes v = Some n /\ node_id n' = node_id n /\ pos n' = pos n.
Proof.
  intros Heq Hn'.
  assert (H : vec_at (node_core <$> nodes) v = Some (node_core n')).
  { rewrite <- Heq. apply vec_at_fmap_Some. eauto. }
  apply vec_at_fmap_Some in H as (n & Hn & Hc). exists n.
  unfold node_core in Hc. inversion Hc. auto.
Qed.

Lemma nodes_wf_core pts g g' :
  node_core <$> m_nodes g' = node_core <$> m_nodes g ->
  m_nodeIndex g' = m_nodeIndex g -> m_snapSize g' = m_snapSize g ->
  nodes_wf pts g -> nodes_wf pts g'.
Proof.
  intros Hc Hi Hs [Hnode Hreg Hsize]. split.
  - intros v n' Hn'. rewrite Hi, Hs.
    destruct (node_core_lookup _ _ _ _ Hc Hn') as (n & Hn & -> & ->). eauto.
  - intros p Hp. rewrite Hi, Hs. eauto.
  - rewrite Hi, Hsize. apply (f_equal length) in Hc.
    now rewrite !length_fmap in Hc.
Qed.

Lemma nodes_wf_more pts pts' g :
  (forall p, p ∈ pts -> p ∈ pts') ->
  (forall p, p ∈ pts' -> p ∈ pts \/
             is_Some (m_nodeIndex g !! snapKey (m_snapSize g) p)) ->
  nodes_wf pts g -> nodes_wf pts' g.
Proof.
  intros Hsub Hnew [Hnode Hreg Hsize]. split; [| |easy].
  - intros v n Hn. destruct (Hnode v n Hn) as (? & ? & ?). auto.
  - intros p Hp. destruct (Hnew p Hp); auto.
Qed.

(** Resolving a point keeps nodes and registry well formed, and registers
    the point. *)
Lemma findOrCreateNode_nodes_wf pts p g :
  nodes_wf pts g -> nodes_wf (pts ++ [p]) (snd (findOrCreateNode p g)).
Proof.
  intros Hwf. pose proof Hwf as [Hnode Hreg Hsize]. unfold findOrCreateNode.
  destruct (m_nodeIndex g !! snapKey (m_snapSize g) p) as [v|] eqn:Hk;
    cbn [snd].
  - apply (nodes_wf_more pts); [|intros q [Hq|Hq%list_elem_of_singleton]%elem_of_app|easy].
    + intros q Hq. apply elem_of_app. auto.
    + auto.
    + right. subst q. rewrite Hk. eauto.
  - split; cbn [m_nodes m_nodeIndex m_snapSize].
    + intros v n. rewrite vec_at_app.
      destruct (Z.ltb_spec v (vec_size (m_nodes g))) as [Hlt|Hge].
      * intros Hn. destruct (Hnode v n Hn) as (Hid & Hkey & Hin).
        split; [easy|]. split; [|apply elem_of_app; auto].
        rewrite lookup_insert_ne; [easy|]. intros Heq. congruence.
      * intros [H0 Hn]%vec_at_Some.
        destruct (Z.to_nat (v - vec_size (m_nodes g))) as [|k] eqn:Ek;
          cbn in Hn; [|destruct k; discriminate].
        inversion Hn; subst n. cbn.
        assert (v = vec_size (m_nodes g)) as -> by lia.
        split; [easy|]. split; [apply lookup_insert_eq|].
        apply elem_of_app. right. now apply list_elem_of_singleton.
    + intros q [Hq|Hq%list_elem_of_singleton]%elem_of_app.
      * destruct (decide (snapKey (m_snapSize g) p = snapKey (m_snapSize g) q))
          as [<-|Hne].
        -- rewrite lookup_insert_eq. eauto.
        -- rewrite lookup_insert_ne by easy. auto.
      * subst q. rewrite lookup_insert_eq. eauto.
    + rewrite map_size_insert_None by easy. rewrite length_app, Hsize. cbn. lia.
Qed.

Lemma resolve_stable g g' p :
  m_snapSize g' = m_snapSize g ->
  (forall k v, m_nodeIndex g !! k = Some v -> m_nodeIndex g' !! k = Some v) ->
  is_Some (m_nodeIndex g !! snapKey (m_snapSize g) p) ->
  resolve g' p = resolve g p.
Proof.
  intros Hs Hmono [v Hv].
  rewrite (resolve_registered g p v Hv). apply resolve_registered.
  rewrite Hs. auto.
Qed.

Lemma bind_ext_Forall {A B} (f h : A -> list B) (l : list A) :
  Forall (fun x => f x = h x) l -> l ≫= f = l ≫= h.
Proof.
  induction 1 as [|x l Hx _ IH]; [easy|]. now rewrite !bind_cons, Hx, IH.
Qed.

Lemma endpoints_app segs s :
  endpoints (segs ++ [s]) = endpoints segs ++ [seg_a s; seg_b s].
Proof. unfold endpoints. now rewrite bind_app. Qed.

Lemma endpoints_elem segs s :
  s ∈ segs -> seg_a s ∈ endpoints segs /\ seg_b s ∈ endpoints segs.
Proof.
  intros Hs. unfold endpoints.
  split; apply list_elem_of_bind; exists s; (split; [|easy]).
  - apply list_elem_of_here.
  - apply list_elem_of_further, list_elem_of_here.
Qed.

(** The segments processed so far keep their half-edge ends when the
    registry grows. *)
Lemma segment_edges_stable done g g' :
  m_snapSize g' = m_snapSize g ->
  (forall k v, m_nodeIndex g !! k = Some v -> m_nodeIndex g' !! k = Some v) ->
  nodes_wf (endpoints done) g ->
  filter (fun s => accepted (m_snapSize g') s = true) done ≫= segment_edges g'
  = filter (fun s => accepted (m_snapSize g) s = true) done ≫= segment_edges g.
Proof.
  intros Hs Hmono Hwf. rewrite Hs. apply bind_ext_Forall, Forall_forall.
  intros s [_ Hin]%list_elem_of_filter.
  destruct (endpoints_elem _ _ Hin) as [Ha Hb].
  unfold segment_edges.
  now rewrite !(resolve_stable g g') by (auto; apply (nwf_reg _ _ Hwf); auto).
Qed.

Lemma angle_of_core atan2 g g' e e' :
  node_core <$> m_nodes g' = node_core <$> m_nodes g ->
  he_from e' = he_from e -> he_to e' = he_to e ->
  angle_of atan2 g' e' = angle_of atan2 g e.
Proof.
  intros Hc Hf Ht. unfold angle_of. rewrite Hf, Ht.
  assert (H : forall v, (pos <$> vec_at (m_nodes g') v)
                        = (pos <$> vec_at (m_nodes g) v)).
  { intros v.
    assert (Hv : vec_at (node_core <$> m_nodes g') v
                 = vec_at (node_core <$> m_nodes g) v) by now rewrite Hc.
    rewrite !vec_at_fmap in Hv.
    destruct (vec_at (m_nodes g') v), (vec_at (m_nodes g) v); cbn in *;
      try discriminate; [|easy].
    unfold node_core in Hv. now inversion Hv. }
  pose proof (H (he_from e)) as Ha. pose proof (H (he_to e)) as Hb.
  destruct (vec_at (m_nodes g') (he_from e)),
    (vec_at (m_nodes g) (he_from e)); cbn in *; try discriminate; [|easy].
  destruct (vec_at (m_nodes g') (he_to e)),
    (vec_at (m_nodes g) (he_to e)); cbn in *; try discriminate; [|easy].
  inversion Ha. inversion Hb. congruence.
Qed.

Lemma angle_of_grow atan2 g g' extra e x :
  m_nodes g' = m_nodes g ++ extra ->
  angle_of atan2 g e = Some x -> angle_of atan2 g' e = Some x.
Proof.
  intros Hn. unfold angle_of. rewrite Hn.
  destruct (vec_at (m_nodes g) (he_from e)) as [na|] eqn:Ha; [|easy].
  destruct (vec_at (m_nodes g) (he_to e)) as [nb|] eqn:Hb; [|easy].
  now rewrite (vec_at_app_left _ extra _ _ Ha), (vec_at_app_left _ extra _ _ Hb).
Qed.

Lemma resolve_core g g' p :
  m_nodeIndex g' = m_nodeIndex g -> m_snapSize g' = m_snapSize g ->
  length (m_nodes g') = length (m_nodes g) ->
  resolve g' p = resolve g p.
Proof.
  intros Hi Hs Hl. unfold resolve, findOrCreateNode. rewrite Hi, Hs.
  destruct (m_nodeIndex g !! _); cbn; [easy|]. unfold vec_size. now rewrite Hl.
Qed.

Section BuilderNodes.

Variable atan2 : double -> double -> double.

(** The two outcomes of one pass of the loop of [buildNodesAndEdges]. *)
Lemma addSegment_shape s g :
  registry_wf g ->
  exists a g1 b g2,
    findOrCreateNode (seg_a s) g = (a, g1) /\
    findOrCreateNode (seg_b s) g1 = (b, g2) /\
    ((a = b /\ addSegment atan2 s g = Returned g2) \/
     (a <> b /\
      exists na nb,
        vec_at (m_nodes g2) a = Some na /\ vec_at (m_nodes g2) b = Some nb /\
        addSegment atan2 s g =
        Returned
          (mkRoomGraph
             (vec_alter (push_out (vec_size (m_edges g2) + 1)) b
                (vec_alter (push_out (vec_size (m_edges g2))) a (m_nodes g2)))
             (m_edges g2 ++
              [mkHalfEdge (vec_size (m_edges g2)) a b
                 (vec_size (m_edges g2) + 1) (-1) false
                 (atan2 (vy (pos nb) - vy (pos na))%D
                    (vx (pos nb) - vx (pos na))%D);
               mkHalfEdge (vec_size (m_edges g2) + 1) b a
                 (vec_size (m_edges g2)) (-1) false
                 (atan2 (vy (pos na) - vy (pos nb))%D
                    (vx (pos na) - vx (pos nb))%D)])
             (m_rooms g2) (m_nodeIndex g2) (m_snapSize g2)))).
Proof.
  intros Hreg.
  destruct (findOrCreateNode (seg_a s) g) as [a g1] eqn:Ea.
  destruct (findOrCreateNode_spec _ _ _ _ Ea Hreg)
    as (Hreg1 & Hka & _).
  destruct (findOrCreateNode (seg_b s) g1) as [b g2] eqn:Eb.
  destruct (findOrCreateNode_spec _ _ _ _ Eb Hreg1)
    as (Hreg2 & Hkb & Hmono2 & _).
  apply Hmono2 in Hka.
  exists a, g1, b, g2. split; [reflexivity|]. split; [exact Eb|].
  unfold addSegment. rewrite Ea, Eb.
  destruct (Z.eqb_spec a b) as [Hab|Hab]; [now left|right].
  split; [easy|].
  destruct (vec_at_is_Some (m_nodes g2) a (reg_range _ Hreg2 _ _ Hka)) as [na Hna].
  destruct (vec_at_is_Some (m_nodes g2) b (reg_range _ Hreg2 _ _ Hkb)) as [nb Hnb].
  exists na, nb. do 2 (split; [easy|]).
  unfold vec_get. now rewrite Hna, Hnb.
Qed.

(** One pass of the loop keeps nodes, registry and half-edges in step with
    the segments processed. *)
Lemma addSegment_follow s done g :
  builder_inv g ->
  nodes_wf (endpoints done) g -> edges_follow atan2 done g ->
  exists g',
    addSegment atan2 s g = Returned g' /\ builder_inv g' /\
    nodes_wf (endpoints (done ++ [s])) g' /\
    edges_follow atan2 (done ++ [s]) g' /\
    m_snapSize g' = m_snapSize g.
Proof.
  intros Hinv Hnwf [Hends Hangle].
  destruct (addSegment_spec atan2 s g Hinv)
    as (g' & Hadd & Hinv' & Hsnap & _ & _ & _ & _ & _ & _).
  exists g'. do 2 (split; [easy|]).
  destruct (addSegment_shape s g (bi_reg _ Hinv))
    as (a & g1 & b & g2 & Ea & Eb & Hcase).
  destruct (findOrCreateNode_spec _ _ _ _ Ea (bi_reg _ Hinv))
    as (Hreg1 & Hka & Hmono1 & He1 & _ & Hs1 & ex1 & Hn1 & _).
  destruct (findOrCreateNode_spec _ _ _ _ Eb Hreg1)
    as (Hreg2 & Hkb & Hmono2 & He2 & _ & Hs2 & ex2 & Hn2 & _).
  rewrite Hs1 in Hkb. apply Hmono2 in Hka.
  assert (Hs : m_snapSize g2 = m_snapSize g) by congruence.
  assert (Hmono : forall k v, m_nodeIndex g !! k = Some v ->
                              m_nodeIndex g2 !! k = Some v) by auto.
  assert (Hnwf2 : nodes_wf (endpoints (done ++ [s])) g2).
  { rewrite endpoints_app.
    change [seg_a s; seg_b s] with ([seg_a s] ++ [seg_b s]).
    rewrite app_assoc.
    replace g2 with (snd (findOrCreateNode (seg_b s) g1)) by now rewrite Eb.
    apply findOrCreateNode_nodes_wf.
    replace g1 with (snd (findOrCreateNode (seg_a s) g)) by now rewrite Ea.
    now apply findOrCreateNode_nodes_wf. }
  assert (Hra : resolve g2 (seg_a s) = a)
    by (apply resolve_registered; now rewrite Hs).
  assert (Hrb : resolve g2 (seg_b s) = b)
    by (apply resolve_registered; now rewrite Hs).
  assert (Hold : filter (fun s0 => accepted (m_snapSize g2) s0 = true) done
                   ≫= segment_edges g2
                 = edge_ends <$> m_edges g).
  { rewrite Hends. now apply segment_edges_stable. }
  assert (Hgrow : forall i e, vec_at (m_edges g) i = Some e ->
                              angle_of atan2 g2 e = Some (he_angle e)).
  { intros i e He.
    apply (angle_of_grow atan2 g1 g2 ex2); [easy|].
    apply (angle_of_grow atan2 g g1 ex1); [easy|]. eauto. }
  destruct Hcase as [[Hab Hret]|(Hab & na & nb & Hna & Hnb & Hret)];
    rewrite Hret in Hadd; inversion Hadd; subst g'; clear Hadd.
  - split; [easy|]. split; [|easy]. split.
    + rewrite filter_app, bind_app, Hold, He2, He1.
      assert (Hacc : accepted (m_snapSize g2) s = false).
      { apply accepted_false. rewrite Hs. subst b.
        eapply (reg_inj _ Hreg2); eauto. }
      rewrite filter_cons, decide_False by now rewrite Hacc.
      now rewrite app_nil_r.
    + intros i e He. rewrite He2, He1 in He. eauto.
  - set (g' := mkRoomGraph _ _ _ _ _) in *.
    assert (Hcore : node_core <$> m_nodes g' = node_core <$> m_nodes g2).
    { unfold g'. cbn [m_nodes]. now rewrite !node_core_push. }
    assert (Hlen : length (m_nodes g') = length (m_nodes g2)).
    { apply (f_equal length) in Hcore. now rewrite !length_fmap in Hcore. }
    split; [now apply (nodes_wf_core _ g2)|]. split; [|easy]. split.
    + unfold g' at 1. cbn [m_edges]. rewrite fmap_app.
      rewrite filter_app, bind_app.
      assert (Hacc : accepted (m_snapSize g') s = true).
      { apply accepted_true. cbn [g' m_snapSize]. rewrite Hs.
        intros Hk. rewrite Hk in Hka. congruence. }
      rewrite (filter_cons _ s), decide_True by easy.
      rewrite He2, He1. f_equal.
      * rewrite <- Hold. apply bind_ext_Forall, Forall_forall. intros s0 _.
        unfold segment_edges. now rewrite !(resolve_core g2 g') by easy.
      * cbn. unfold segment_edges.
        rewrite !(resolve_core g2 g') by easy. now rewrite Hra, Hrb.
    + intros i e. unfold g' at 1. cbn [m_edges]. rewrite vec_at_push2.
      intros [He|[[-> ->]|[-> ->]]].
      * rewrite (angle_of_core atan2 g2 g' e e Hcore) by easy.
        rewrite He2, He1 in He. eauto.
      * rewrite (angle_of_core atan2 g2 g' _ _ Hcore eq_refl eq_refl).
        unfold angle_of. cbn. now rewrite Hna, Hnb.
      * rewrite (angle_of_core atan2 g2 g' _ _ Hcore eq_refl eq_refl).
        unfold angle_of. cbn. now rewrite Hna, Hnb.
Qed.

End BuilderNodes.

Lemma buildNodesAndEdges_follow atan2 :
  forall rest done g,
    builder_inv g ->
    nodes_wf (endpoints done) g -> edges_follow atan2 done g ->
    exists g',
      buildNodesAndEdges atan2 rest g = Returned g' /\ builder_inv g' /\
      nodes_wf (endpoints (done ++ rest)) g' /\
      edges_follow atan2 (done ++ rest) g' /\
      m_snapSize g' = m_snapSize g.
Proof.
  induction rest as [|s rest IH]; intros done g Hinv Hn He.
  - exists g. rewrite app_nil_r. auto.
  - destruct (addSegment_follow atan2 s done g Hinv Hn He)
      as (g1 & Hadd & Hinv1 & Hn1 & He1 & Hs1).
    destruct (IH (done ++ [s]) g1 Hinv1 Hn1 He1)
      as (g' & Hb & Hinv' & Hn' & He' & Hs').
    exists g'. split; [cbn; rewrite Hadd; exact Hb|].
    rewrite <- app_assoc in Hn', He'. cbn in Hn', He'.
    split; [easy|]. split; [easy|]. split; [easy|]. congruence.
Qed.

Lemma buildNodesAndEdges_clear_follow atan2 segs g :
  exists g1,
    buildNodesAndEdges atan2 segs (clear g) = Returned g1 /\ builder_inv g1 /\
    nodes_wf (endpoints segs) g1 /\ edges_follow atan2 segs g1 /\
    m_snapSize g1 = m_snapSize g.
Proof.
  apply (buildNodesAndEdges_follow atan2 segs [] (clear g)).
  - apply clear_inv.
  - split; cbn.
    + intros v n Hn. apply vec_at_Some in Hn as [_ Hn]. discriminate.
    + intros p Hp. now apply elem_of_nil in Hp.
    + apply map_size_empty.
  - split; cbn; [reflexivity|].
    intros i e He. apply vec_at_Some in He as [_ He]. discriminate.
Qed.

Lemma edge_core_unmark e : edge_core (unmark e) = edge_core e.
Proof. reflexivity. Qed.

Lemma edge_core_next nodes e : edge_core (nextRelation nodes e) = edge_core e.
Proof.
  destruct (nextRelation_fields nodes e) as (H1 & H2 & H3 & H4 & _ & H6).
  unfold edge_core. now rewrite H1, H2, H3, H4, H6.
Qed.

Lemma edge_core_lookup (es es' : list HalfEdge) i e' :
  edge_core <$> es' = edge_core <$> es -> vec_at es' i = Some e' ->
  exists e, vec_at es i = Some e /\ edge_core e' = edge_core e.
Proof.
  intros Heq He'.
  assert (H : vec_at (edge_core <$> es) i = Some (edge_core e')).
  { rewrite <- Heq. apply vec_at_fmap_Some. eauto. }
  apply vec_at_fmap_Some in H as (e & He & Hc). eauto.
Qed.

Section BuildCore.

Variable atan2 : double -> double -> double.
Variable sort : (Z -> Z -> bool) -> list Z -> list Z.
Hypothesis sort_perm : forall cmp l, sort cmp l ≡ₚ l.

(** What [build] keeps of the graph the half-edge builder made: ids and
    positions of the nodes, the registry, and every field of the
    half-edges but [next] and [used]. *)
Lemma build_core segs g :
  exists g1 g',
    buildNodesAndEdges atan2 segs (clear g) = Returned g1 /\
    build atan2 sort segs g = Returned g' /\
    node_core <$> m_nodes g' = node_core <$> m_nodes g1 /\
    m_nodeIndex g' = m_nodeIndex g1 /\ m_snapSize g' = m_snapSize g1 /\
    edge_core <$> m_edges g' = edge_core <$> m_edges g1.
Proof.
  destruct segs as [|s segs].
  { exists (clear g), (clear g). cbn. auto 10. }
  destruct (buildGraph_spec atan2 sort sort_perm (s :: segs) g)
    as (g1 & g3 & Hg1 & _ & Hg3 & -> & _).
  destruct (walk_built atan2 sort sort_perm _ _ _ Hg3)
    as (g' & walks & Hrun & _ & Hunm & _).
  specialize (Hrun _ (Nat.lt_succ_diag_r _)).
  exists g1, g'. split; [easy|].
  split.
  { unfold build. rewrite Hg3. cbn [mbind outcome_bind].
    unfold walkCycles. now rewrite Hrun. }
  destruct (walkFrom_rooms _ _ _ _ _ _ Hrun) as (_ & _ & _ & _ & Hn & Hi & Hs).
  rewrite Hn, Hi, Hs. cbn [buildNextRelations sortOutgoingByAngle m_nodes
                             m_nodeIndex m_snapSize].
  split; [apply node_core_sorted|]. do 2 (split; [reflexivity|]).
  assert (H : edge_core <$> (unmark <$> m_edges g')
              = edge_core <$> (unmark <$> m_edges
                   (buildNextRelations (sortOutgoingByAngle sort g1))))
    by now rewrite Hunm.
  rewrite <- !list_fmap_compose in H.
  rewrite (list_fmap_ext (edge_core ∘ unmark) edge_core (m_edges g')) in H
    by (intros; apply edge_core_unmark).
  rewrite H. cbn [buildNextRelations sortOutgoingByAngle m_edges m_nodes].
  rewrite <- list_fmap_compose. apply list_fmap_ext.
  intros i e _. apply edge_core_next.
Qed.

(** X8: [build] returns a graph with one node per snap key: a node sits at
    the index that is its id, is registered under the snap key of its
    position, and its position is an endpoint of an input segment, not
    snapped; every endpoint of the input resolves to a node whose position
    has the snap key of the endpoint; there are as many nodes as
    registered keys. *)
Theorem nodes_follow_registry segs g :
  exists g',
    build atan2 sort segs g = Returned g' /\
    (forall v n,
        vec_at (m_nodes g') v = Some n ->
        node_id n = v /\
        m_nodeIndex g' !! snapKey (m_snapSize g') (pos n) = Some v /\
        pos n ∈ endpoints segs) /\
    (forall p,
        p ∈ endpoints segs ->
        exists n,
          vec_at (m_nodes g') (resolve g' p) = Some n /\
          snapKey (m_snapSize g') (pos n) = snapKey (m_snapSize g') p) /\
    size (m_nodeIndex g') = length (m_nodes g').
Proof.
  destruct (build_core segs g) as (g1 & g' & Hg1 & Hb & Hn & Hi & Hs & _).
  destruct (buildNodesAndEdges_clear_follow atan2 segs g)
    as (g1' & Hg1' & Hinv & Hnwf & _).
  assert (g1' = g1) as -> by congruence.
  apply (nodes_wf_core _ g1 g' Hn Hi Hs) in Hnwf.
  destruct Hnwf as [Hnode Hreg Hsize].
  exists g'. split; [easy|]. split; [easy|]. split; [|easy].
  intros p Hp. destruct (Hreg p Hp) as [v Hv].
  rewrite (resolve_registered _ _ _ Hv).
  assert (Hrange : 0 <= v < vec_size (m_nodes g')).
  { rewrite Hi, Hs in Hv. pose proof (reg_range _ (bi_reg _ Hinv) _ _ Hv) as Hr.
    apply (f_equal length) in Hn. rewrite !length_fmap in Hn.
    unfold vec_size in *. lia. }
  destruct (vec_at_is_Some _ _ Hrange) as [n Hnv].
  exists n. split; [easy|].
  destruct (Hnode v n Hnv) as (_ & Hkey & _).
  rewrite Hi, Hs in Hkey, Hv. rewrite Hs.
  eapply (reg_inj _ (bi_reg _ Hinv)); eauto.
Qed.

(** X9: the half-edges [build] returns are, in order, the two directions of
    each accepted segment of the input: the pair of the k-th accepted
    segment runs between the nodes its two endpoints resolve to, first
    from [a] to [b], then back. *)
Theorem edges_follow_segments segs g :
  exists g',
    build atan2 sort segs g = Returned g' /\
    edge_ends <$> m_edges g'
    = filter (fun s => accepted (m_snapSize g') s = true) segs
        ≫= segment_edges g'.
Proof.
  destruct (build_core segs g) as (g1 & g' & Hg1 & Hb & Hn & Hi & Hs & He).
  destruct (buildNodesAndEdges_clear_follow atan2 segs g)
    as (g1' & Hg1' & _ & _ & [Hends _] & _).
  assert (g1' = g1) as -> by congruence.
  exists g'. split; [easy|].
  assert (Hl : length (m_nodes g') = length (m_nodes g1)).
  { apply (f_equal length) in Hn. now rewrite !length_fmap in Hn. }
  transitivity (edge_ends <$> m_edges g1).
  { assert (H : (fun c : Z * Z * Z * Z * double => (c.1.1.1.2, c.1.1.2))
                  <$> (edge_core <$> m_edges g')
                = (fun c : Z * Z * Z * Z * double => (c.1.1.1.2, c.1.1.2))
                  <$> (edge_core <$> m_edges g1)) by now rewrite He.
    now rewrite <- !list_fmap_compose in H. }
  rewrite Hends, Hs. apply bind_ext_Forall, Forall_forall. intros s _.
  unfold segment_edges. now rewrite !(resolve_core g1 g').
Qed.

(** X10: every half-edge [build] returns holds, as its angle, [atan2] of
    the vector from the position of its source node to the position of its
    target node, both nodes being in the node array. *)
Theorem edges_hold_their_angle segs g :
  exists g',
    build atan2 sort segs g = Returned g' /\
    forall i e,
      vec_at (m_edges g') i = Some e ->
      exists na nb,
        vec_at (m_nodes g') (he_from e) = Some na /\
        vec_at (m_nodes g') (he_to e) = Some nb /\
        he_angle e = atan2 (vy (pos nb) - vy (pos na))%D
                       (vx (pos nb) - vx (pos na))%D.
Proof.
  destruct (build_core segs g) as (g1 & g' & Hg1 & Hb & Hn & Hi & Hs & He).
  destruct (buildNodesAndEdges_clear_follow atan2 segs g)
    as (g1' & Hg1' & _ & _ & [_ Hangle] & _).
  assert (g1' = g1) as -> by congruence.
  exists g'. split; [easy|]. intros i e' He'.
  destruct (edge_core_lookup _ _ _ _ He He') as (e & Hev & Hc).
  unfold edge_core in Hc. inversion Hc as [[Hid Hf Ht Htw Ha]].
  pose proof (Hangle i e Hev) as Hang.
  rewrite <- (angle_of_core atan2 g1 g' e e' Hn Hf Ht) in Hang.
  unfold angle_of in Hang.
  destruct (vec_at (m_nodes g') (he_from e')) as [na|]; [|discriminate].
  destruct (vec_at (m_nodes g') (he_to e')) as [nb|]; [|discriminate].
  cbn in Hang. exists na, nb. do 2 (split; [easy|]). congruence.
Qed.

End BuildCore.

(** ** The cycle walker and the rooms *)

(** A walk records at most one vertex per half-edge it marks. *)
Lemma walkLoop_marks nodes s fuel :
  forall es c poly it es' poly' ex n,
    walkLoop fuel nodes s es c poly it = Returned (es', poly', ex, n) ->
    (unused_count es' + length poly' <= unused_count es + length poly)%nat.
Proof.
  induction fuel as [|fuel IH]; intros es c poly it es' poly' ex n Hrun;
    [discriminate|].
  cbn [walkLoop] in Hrun. unfold vec_get in Hrun.
  destruct (vec_at es c) as [e|] eqn:Hc; cbn in Hrun; try discriminate.
  destruct (he_used e) eqn:Hu.
  { inversion Hrun; subst. lia. }
  pose proof (unused_count_mark _ _ _ Hc Hu) as Hcount.
  destruct (_ || _).
  { inversion Hrun; subst. lia. }
  destruct (vec_at nodes (he_from e)) as [node|]; cbn in Hrun;
    try discriminate.
  destruct (he_next e <? 0).
  { inversion Hrun; subst. rewrite length_app. cbn. lia. }
  destruct (he_next e =? s).
  { inversion Hrun; subst. rewrite length_app. cbn. lia. }
  apply IH in Hrun. rewrite length_app in Hrun. cbn in Hrun. lia.
Qed.

Lemma walkFrom_marks fuel :
  forall idxs g trace g' trace',
    walkFrom fuel idxs g trace = Returned (g', trace') ->
    (unused_count (m_edges g') + 3 * length (m_rooms g')
     <= unused_count (m_edges g) + 3 * length (m_rooms g))%nat.
Proof.
  induction idxs as [|i rest IH]; intros g trace g' trace' Hrun.
  - cbn in Hrun. inversion Hrun; subst. lia.
  - cbn [walkFrom] in Hrun.
    destruct (vec_get (m_edges g) (Z.of_nat i)) as [start| |]; cbn in Hrun;
      try discriminate.
    destruct (he_used start); [eapply IH; eassumption|].
    destruct (walkLoop _ _ _ _ _ _ _) as [[[[es' poly] ex] n]| |] eqn:Hw;
      cbn in Hrun; try discriminate.
    apply walkLoop_marks in Hw. eapply IH in Hrun.
    cbn [with_walk m_edges m_rooms] in Hrun.
    rewrite length_app in Hrun. cbn [length] in Hw.
    destruct (roomOf poly) as [r|] eqn:Hroom; cbn in Hrun; [|lia].
    apply roomOf_Some in Hroom as (_ & Hlen & _). lia.
Qed.

(** X11: whatever [std::sort] does, the rooms [build] returns number at
    most a third of the half-edges, which number twice the accepted
    segments: a room takes at least three half-edges and no half-edge serves
    two rooms. An input with at most one accepted segment, a single open
    segment for instance, yields no room. *)
Theorem rooms_at_most_a_third_of_edges atan2 sort segs g g' :
  build atan2 sort segs g = Returned g' ->
  (3 * length (getRooms g') <= length (m_edges g'))%nat /\
  length (m_edges g')
  = (2 * length (filter (fun s => accepted (m_snapSize g) s = true) segs))%nat /\
  (length (getRooms g') <= length segs)%nat.
Proof.
  intros Hb. unfold build in Hb.
  assert (Hgoal : (3 * length (getRooms g') <= length (m_edges g'))%nat /\
                  length (m_edges g')
                  = (2 * length (filter (fun s => accepted (m_snapSize g) s = true)
                                   segs))%nat).
  { destruct segs as [|s segs].
    { inversion Hb; subst. cbn. lia. }
    unfold buildGraph in Hb.
    destruct (buildNodesAndEdges_spec atan2 (s :: segs) (clear g) (clear_inv g))
      as (g1 & Hg1 & _ & _ & Hrooms1 & _ & _ & Hlen).
    rewrite Hg1 in Hb. cbn [mbind outcome_bind mret outcome_ret] in Hb.
    unfold walkCycles in Hb.
    destruct (walkCycles_trace _ _) as [[g'' walks]| |] eqn:Hw; cbn in Hb;
      try discriminate.
    inversion Hb; subst g''. unfold walkCycles_trace in Hw.
    pose proof (walkFrom_marks _ _ _ _ _ _ Hw) as Hmarks.
    destruct (walkFrom_frame _ _ _ _ _ _ Hw) as (Hunm & _).
    apply (f_equal length) in Hunm. rewrite !length_fmap in Hunm.
    cbn [buildNextRelations sortOutgoingByAngle m_edges m_rooms] in Hmarks, Hunm.
    rewrite length_fmap in Hunm. rewrite Hrooms1 in Hmarks.
    pose proof (unused_count_le (nextRelation
                  (m_nodes (sortOutgoingByAngle sort g1)) <$> m_edges g1)) as Hle.
    rewrite length_fmap in Hle. cbn [sortOutgoingByAngle m_nodes] in Hle, Hmarks.
    cbn [clear m_rooms m_edges m_snapSize length] in Hmarks, Hlen.
    unfold getRooms. rewrite Hunm, Hlen. split; lia. }
  destruct Hgoal as [H3 H2]. do 2 (split; [easy|]).
  pose proof (length_filter (fun s => accepted (m_snapSize g) s = true) segs).
  lia.
Qed.

Lemma rooms_at_most_a_third_of_edges_witness :
  exists g',
    build atan2_axis insertion_sort square newRoomGraph = Returned g' /\
    (3 * length (getRooms g') <= length (m_edges g'))%nat /\
    length (m_edges g')
    = (2 * length (filter (fun s => accepted (m_snapSize newRoomGraph) s = true)
                     square))%nat /\
    (length (getRooms g') <= length square)%nat.
Proof.
  eexists. split; [vm_compute; reflexivity|].
  eapply (rooms_at_most_a_third_of_edges atan2_axis insertion_sort square
            newRoomGraph).
  vm_compute. reflexivity.
Defined.

(** X12: every vertex of every room [build] returns is an endpoint of an
    input segment, as given (not snapped), whatever [std::sort] does; the
    centre of the room is [computeCentroid] of its polygon and signed
    area. *)
Theorem room_vertices_are_endpoints atan2 sort segs g g' r :
  build atan2 sort segs g = Returned g' ->
  r ∈ getRooms g' ->
  (forall p, p ∈ polygon r -> p ∈ endpoints segs) /\
  center r = computeCentroid (polygon r) (computeSignedArea (polygon r)).
Proof.
  intros Hb Hr. unfold getRooms in Hr. unfold build in Hb.
  destruct segs as [|s segs].
  { inversion Hb; subst. cbn in Hr. now apply elem_of_nil in Hr. }
  unfold buildGraph in Hb.
  destruct (buildNodesAndEdges_clear_follow atan2 (s :: segs) g)
    as (g1 & Hg1 & Hinv & [Hnode _ _] & _).
  destruct (buildNodesAndEdges_spec atan2 (s :: segs) (clear g) (clear_inv g))
    as (g1' & Hg1' & _ & _ & Hrooms1 & _).
  assert (g1' = g1) as -> by congruence.
  rewrite Hg1 in Hb. cbn [mbind outcome_bind mret outcome_ret] in Hb.
  unfold walkCycles in Hb.
  destruct (walkCycles_trace _ _) as [[g'' walks]| |] eqn:Hw; cbn in Hb;
    try discriminate.
  inversion Hb; subst g''. unfold walkCycles_trace in Hw.
  destruct (walkFrom_rooms _ _ _ _ _ _ Hw) as (ws & Hws & Hall & Hrooms & _).
  destruct (walkFrom_frame _ _ _ _ _ _ Hw) as (_ & _ & ws' & Hws' & Hpts).
  cbn in Hws, Hws'. subst ws ws'.
  cbn [buildNextRelations sortOutgoingByAngle m_rooms m_nodes] in Hrooms, Hpts.
  rewrite Hrooms1 in Hrooms. cbn in Hrooms.
  rewrite Hrooms in Hr. apply list_elem_of_omap in Hr as (w & Hw_in & Hwr).
  rewrite Forall_forall in Hall, Hpts. rewrite (Hall w Hw_in) in Hwr.
  apply roomOf_Some in Hwr as (Hpoly & _ & _ & _ & _ & Hcenter).
  rewrite Hpoly. split; [|easy].
  intros p Hp. destruct (Hpts w Hw_in) as [_ Hnodes].
  destruct (Hnodes p Hp) as (nd & Hnd & <-).
  apply list_elem_of_lookup_1 in Hnd as [v Hv].
  assert (Hv' : vec_at (sortOutgoing sort (m_edges g1) <$> m_nodes g1)
                  (Z.of_nat v) = Some nd) by now rewrite vec_at_of_nat.
  destruct (node_core_lookup _ _ _ _ (node_core_sorted sort _ _) Hv')
    as (n & Hn & _ & ->).
  now destruct (Hnode _ _ Hn) as (_ & _ & Hin).
Qed.

Lemma room_vertices_are_endpoints_witness :
  let r := mkRoom [pt 0 0; pt 10 0; pt 10 10; pt 0 10] (pt 5 5) (of_Z 100) in
  (forall p, p ∈ polygon r -> p ∈ endpoints square) /\
  center r = computeCentroid (polygon r) (computeSignedArea (polygon r)).
Proof.
  intros r.
  eapply (room_vertices_are_endpoints atan2_axis insertion_sort square
            newRoomGraph _ r).
  - vm_compute. reflexivity.
  - vm_compute. apply list_elem_of_here.
Defined.

Lemma unused_count_fresh es :
  Forall (fun e => he_used e = false) es -> unused_count es = length es.
Proof.
  unfold unused_count. induction 1 as [|e es He _ IH]; [easy|].
  rewrite filter_cons, decide_True by easy. cbn. now rewrite IH.
Qed.

Lemma unused_count_zero es :
  (forall i, (i < length es)%nat -> used_at es (Z.of_nat i)) ->
  Forall (fun e => he_used e = true) es /\ unused_count es = 0%nat.
Proof.
  intros Hall.
  assert (H : Forall (fun e => he_used e = true) es).
  { apply Forall_lookup. intros i e He.
    destruct (Hall i (lookup_lt_Some _ _ _ He)) as (e' & He' & Hu).
    rewrite vec_at_of_nat in He'. congruence. }
  split; [easy|]. unfold unused_count. clear Hall.
  induction H as [|e es He _ IH]; [easy|].
  rewrite filter_cons, decide_False by (rewrite He; discriminate). exact IH.
Qed.

(** On a graph whose [next] is injective, the outer loop leaves every index
    it went over marked. *)
Lemma walkFrom_marks_all fuel :
  forall idxs g trace g' trace',
    links_wf (m_nodes g) (m_edges g) ->
    closed_under_pred (m_edges g) ->
    Forall (fun i => (i < length (m_edges g))%nat) idxs ->
    (unused_count (m_edges g) < fuel)%nat ->
    walkFrom fuel idxs g trace = Returned (g', trace') ->
    forall i, i ∈ idxs -> used_at (m_edges g') (Z.of_nat i).
Proof.
  induction idxs as [|i rest IH];
    intros g trace g' trace' Hwf Hcl Hidx Hfuel Hrun j Hj.
  { now apply elem_of_nil in Hj. }
  inversion Hidx as [|? ? Hi Hrest]; subst.
  destruct (vec_at_is_Some (m_edges g) (Z.of_nat i)) as [start Hstart];
    [unfold vec_size; lia|].
  rewrite (walkFrom_cons _ _ _ _ _ _ Hstart) in Hrun.
  destruct (he_used start) eqn:Hused.
  { apply elem_of_cons in Hj as [->|Hj]; [|eapply IH with (5 := Hrun); eauto].
    destruct (walkFrom_frame _ _ _ _ _ _ Hrun) as (_ & Hmono & _).
    apply Hmono. now exists start. }
  destruct (lw_edge _ _ Hwf _ _ Hstart) as (Hid & _).
  rewrite Hid in Hrun.
  destruct (walkLoop_closed (m_nodes g) (Z.of_nat i) fuel (m_edges g)
              (Z.of_nat i) [] 0%nat Hwf)
    as (es' & poly' & k & Hloop & Hunm & Hcl' & Hcnt & Hmono & Hstart_used);
    [intros; eapply Hcl; eauto | eauto | now left | easy |].
  rewrite Hloop in Hrun. cbn in Hrun.
  apply elem_of_cons in Hj as [->|Hj].
  - destruct (walkFrom_frame _ _ _ _ _ _ Hrun) as (_ & Hmono' & _).
    now apply Hmono'.
  - eapply IH with (5 := Hrun); cbn [with_walk m_edges m_nodes].
    + eapply links_wf_unmark; eauto.
    + easy.
    + apply (f_equal length) in Hunm. rewrite !length_fmap in Hunm.
      now rewrite Hunm.
    + lia.
    + easy.
Qed.

Section Traversal.

Variable atan2 : double -> double -> double.
Variable sort : (Z -> Z -> bool) -> list Z -> list Z.
Hypothesis sort_perm : forall cmp l, sort cmp l ≡ₚ l.

(** X13: [build] traverses every half-edge exactly once: in the graph it
    returns every half-edge is marked used, and the body of the inner loop
    of the walker was entered as many times as there are half-edges. *)
Theorem every_edge_walked_once segs g :
  exists g' walks,
    build_trace atan2 sort segs g = Returned (g', walks) /\
    build atan2 sort segs g = Returned g' /\
    Forall (fun e => he_used e = true) (m_edges g') /\
    total_iters walks = length (m_edges g').
Proof.
  destruct (build_trace_spec atan2 sort sort_perm segs g)
    as (g' & walks & Ht & Hb & _).
  exists g', walks. do 2 (split; [easy|]).
  unfold build_trace in Ht. destruct segs as [|s segs].
  { inversion Ht; subst. cbn. auto. }
  destruct (buildGraph_spec atan2 sort sort_perm (s :: segs) g)
    as (g1 & g3 & _ & _ & Hg3 & _ & _ & Hlinks & Hunused & _).
  rewrite Hg3 in Ht. cbn [mbind outcome_bind] in Ht.
  destruct (walk_built atan2 sort sort_perm _ _ _ Hg3)
    as (g'' & walks' & Hrun & _ & Hunm & Hcnt).
  specialize (Hrun _ (Nat.lt_succ_diag_r _)).
  assert (g'' = g' /\ walks' = walks) as [-> ->]
    by (rewrite Hrun in Ht; now inversion Ht).
  pose proof (unused_count_le (m_edges g3)) as Hle.
  assert (Hlen : length (m_edges g') = length (m_edges g3)).
  { apply (f_equal length) in Hunm. now rewrite !length_fmap in Hunm. }
  destruct (unused_count_zero (m_edges g')) as [Hall Hzero].
  { intros i Hi.
    apply (walkFrom_marks_all (S (length (m_edges g3)))
             (seq 0 (length (m_edges g3))) g3 [] g' walks Hlinks
             (unused_fresh_closed _ Hunused)).
    - apply Forall_seq. intros; lia.
    - lia.
    - exact Hrun.
    - apply elem_of_seq. lia. }
  split; [easy|].
  rewrite (unused_count_fresh _ Hunused) in Hcnt. lia.
Qed.

(** X14: in the graph [build] returns, the outgoing list of every node
    holds, once each, the ids of the half-edges that leave the node, and
    nothing else; every half-edge runs between two different nodes of the
    node array; the outgoing lists have as many entries as there are
    half-edges. *)
Theorem outgoing_lists_exact segs g :
  exists g',
    build atan2 sort segs g = Returned g' /\
    (forall v n,
        vec_at (m_nodes g') v = Some n ->
        NoDup (outgoingEdges n) /\
        forall f, f ∈ outgoingEdges n <->
                  exists e, vec_at (m_edges g') f = Some e /\ he_from e = v) /\
    (forall i e,
        vec_at (m_edges g') i = Some e ->
        0 <= he_from e < vec_size (m_nodes g') /\
        0 <= he_to e < vec_size (m_nodes g') /\ he_from e <> he_to e) /\
    total_out (m_nodes g') = length (m_edges g').
Proof.
  destruct (build_edges_wf atan2 sort sort_perm segs g)
    as (g' & Hb & [Hev Hed Htw Hout Hnd]).
  exists g'. split; [easy|]. split; [|split].
  - intros v n Hn. split; [eauto|]. intros f. now apply Hout.
  - intros i e He. destruct (Hed i e He) as (_ & _ & ? & ? & ?). auto.
  - destruct (build_core atan2 sort sort_perm segs g)
      as (g1 & g'' & Hg1 & Hb' & Hn & _ & _ & He).
    assert (g'' = g') as -> by congruence.
    destruct (buildNodesAndEdges_spec atan2 segs (clear g) (clear_inv g))
      as (g1' & Hg1' & Hinv & _).
    assert (g1' = g1) as -> by congruence.
    apply (f_equal length) in He. rewrite !length_fmap in He. rewrite He.
    rewrite <- (bi_total _ Hinv).
    unfold build in Hb. destruct segs as [|s segs].
    { inversion Hb; subst. cbn in Hg1. now inversion Hg1. }
    destruct (buildGraph_spec atan2 sort sort_perm (s :: segs) g)
      as (g1' & g3 & Hg1'' & _ & Hg3 & -> & _).
    assert (g1' = g1) as -> by congruence.
    rewrite Hg3 in Hb. cbn [mbind outcome_bind] in Hb.
    unfold walkCycles in Hb.
    destruct (walkCycles_trace _ _) as [[g'' ws]| |] eqn:Hw; cbn in Hb;
      try discriminate.
    inversion Hb; subst g''.
    destruct (walkCycles_trace_links _ _ _ _ Hw) as (_ & _ & -> & _).
    cbn [buildNextRelations sortOutgoingByAngle m_nodes].
    unfold total_out. clear -sort_perm.
    induction (m_nodes g1) as [|n nodes IH]; [easy|].
    cbn. rewrite IH. f_equal.
    apply Permutation_length, sortOutgoing_perm, sort_perm.
Qed.

End Traversal.

(** ** Instances of the further properties on the sample square *)

Lemma next_is_permutation_witness :
  exists g3,
    buildGraph atan2_axis insertion_sort square newRoomGraph = Returned g3 /\
    (forall i e,
        vec_at (m_edges g3) i = Some e ->
        exists f, vec_at (m_edges g3) (he_next e) = Some f /\
                  he_from f = he_to e) /\
    (forall i j ei ej,
        vec_at (m_edges g3) i = Some ei -> vec_at (m_edges g3) j = Some ej ->
        he_next ei = he_next ej -> i = j) /\
    (forall j f,
        vec_at (m_edges g3) j = Some f ->
        exists i e, vec_at (m_edges g3) i = Some e /\ he_next e = j).
Proof.
  exact (next_is_permutation atan2_axis insertion_sort insertion_sort_perm
           square newRoomGraph).
Defined.

Lemma next_is_twin_iff_degree_one_witness :
  exists g3,
    buildGraph atan2_axis insertion_sort square newRoomGraph = Returned g3 /\
    forall i e nodeB,
      vec_at (m_edges g3) i = Some e ->
      vec_at (m_nodes g3) (he_to e) = Some nodeB ->
      he_twin e ∈ outgoingEdges nodeB /\
      he_next e ∈ outgoingEdges nodeB /\
      (he_next e = he_twin e <-> length (outgoingEdges nodeB) = 1%nat).
Proof.
  exact (next_is_twin_iff_degree_one atan2_axis insertion_sort
           insertion_sort_perm square newRoomGraph).
Defined.

Lemma nodes_follow_registry_witness :
  exists g',
    build atan2_axis insertion_sort square newRoomGraph = Returned g' /\
    (forall v n,
        vec_at (m_nodes g') v = Some n ->
        node_id n = v /\
        m_nodeIndex g' !! snapKey (m_snapSize g') (pos n) = Some v /\
        pos n ∈ endpoints square) /\
    (forall p,
        p ∈ endpoints square ->
        exists n,
          vec_at (m_nodes g') (resolve g' p) = Some n /\
          snapKey (m_snapSize g') (pos n) = snapKey (m_snapSize g') p) /\
    size (m_nodeIndex g') = length (m_nodes g').
Proof.
  exact (nodes_follow_registry atan2_axis insertion_sort insertion_sort_perm
           square newRoomGraph).
Defined.

Lemma edges_follow_segments_witness :
  exists g',
    build atan2_axis insertion_sort square newRoomGraph = Returned g' /\
    edge_ends <$> m_edges g'
    = filter (fun s => accepted (m_snapSize g') s = true) square
        ≫= segment_edges g'.
Proof.
  exact (edges_follow_segments atan2_axis insertion_sort insertion_sort_perm
           square newRoomGraph).
Defined.

Lemma edges_hold_their_angle_witness :
  exists g',
    build atan2_axis insertion_sort square newRoomGraph = Returned g' /\
    forall i e,
      vec_at (m_edges g') i = Some e ->
      exists na nb,
        vec_at (m_nodes g') (he_from e) = Some na /\
        vec_at (m_nodes g') (he_to e) = Some nb /\
        he_angle e = atan2_axis (vy (pos nb) - vy (pos na))%D
                       (vx (pos nb) - vx (pos na))%D.
Proof.
  exact (edges_hold_their_angle atan2_axis insertion_sort insertion_sort_perm
           square newRoomGraph).
Defined.

Lemma every_edge_walked_once_witness :
  exists g' walks,
    build_trace atan2_axis insertion_sort square newRoomGraph
      = Returned (g', walks) /\
    build atan2_axis insertion_sort square newRoomGraph = Returned g' /\
    Forall (fun e => he_used e = true) (m_edges g') /\
    total_iters walks = length (m_edges g').
Proof.
  exact (every_edge_walked_once atan2_axis insertion_sort insertion_sort_perm
           square newRoomGraph).
Defined.

Lemma outgoing_lists_exact_witness :
  exists g',
    build atan2_axis insertion_sort square newRoomGraph = Returned g' /\
    (forall v n,
        vec_at (m_nodes g') v = Some n ->
        NoDup (outgoingEdges n) /\
        forall f, f ∈ outgoingEdges n <->
                  exists e, vec_at (m_edges g') f = Some e /\ he_from e = v) /\
    (forall i e,
        vec_at (m_edges g') i = Some e ->
        0 <= he_from e < vec_size (m_nodes g') /\
        0 <= he_to e < vec_size (m_nodes g') /\ he_from e <> he_to e) /\
    total_out (m_nodes g') = length (m_edges g').
Proof.
  exact (outgoing_lists_exact atan2_axis insertion_sort insertion_sort_perm
           square newRoomGraph).
Defined.

(** ** Geometry: sign of the distance *)

Lemma binary_round_aux_nonneg mx ex lx :
  let r := binary_round_aux prec emax false mx ex lx in
  is_nan r = true \/ leb zero r = true.
Proof.
  unfold binary_round_aux.
  destruct (shr_fexp prec emax mx ex lx) as [mrs' e'].
  destruct (shr_fexp prec emax _ e' loc_Exact) as [mrs'' e''].
  destruct (shr_m mrs''); cbn; auto.
  destruct (_ <=? _); cbn; auto.
Qed.

(** X15: the distance of two points is never negative: it is NaN (when a
    coordinate difference is NaN, or the sum of squares is) or at least
    zero. *)
Theorem distance_not_negative p q :
  is_nan (distance p q) = true \/ leb zero (distance p q) = true.
Proof.
  unfold distance, dsqrt. cbn zeta.
  destruct (_ + _)%D as [s|[]| |[] m e]; cbn [SFsqrt]; auto.
  destruct (SFsqrt_core_binary prec emax (Z.pos m) e) as [[mz ez] lz].
  apply binary_round_aux_nonneg.
Qed.

(** * Claims on the half-edge builder *)

(** The entries of a list of pairs laid out one after the other. *)
Lemma bind_pair_lookup {A B} (f h : A -> B) (l : list A) (k : nat) (x : A) :
  l !! k = Some x ->
  (l ≫= (fun y => [f y; h y])) !! (2 * k)%nat = Some (f x) /\
  (l ≫= (fun y => [f y; h y])) !! (2 * k + 1)%nat = Some (h x).
Proof.
  revert k. induction l as [|y l IH]; intros k Hk; [easy|].
  rewrite bind_cons. destruct k as [|k]; cbn in Hk.
  - inversion Hk; subst. easy.
  - replace (2 * S k)%nat with (S (S (2 * k))) by lia.
    replace (S (S (2 * k)) + 1)%nat with (S (S (2 * k + 1))) by lia.
    cbn. now apply IH.
Qed.

(** What the builder registers: both endpoints of every segment, under
    their snap keys, at node indices; the two indices differ exactly when
    the two keys do. *)
Lemma endpoints_registered atan2 segs g g1 :
  buildNodesAndEdges atan2 segs (clear g) = Returned g1 ->
  Forall (fun s =>
            exists a b,
              m_nodeIndex g1 !! snapKey (m_snapSize g) (seg_a s) = Some a /\
              m_nodeIndex g1 !! snapKey (m_snapSize g) (seg_b s) = Some b /\
              resolve g1 (seg_a s) = a /\ resolve g1 (seg_b s) = b /\
              0 <= a < vec_size (m_nodes g1) /\
              0 <= b < vec_size (m_nodes g1) /\
              (accepted (m_snapSize g) s = true <-> a <> b)) segs.
Proof.
  intros Hrun.
  destruct (buildNodesAndEdges_spec atan2 segs (clear g) (clear_inv g))
    as (g1' & Hb & Hinv & Hsnap & _ & _ & Hreg & _).
  assert (g1' = g1) as -> by congruence. cbn [clear m_snapSize] in *.
  eapply Forall_impl; [exact Hreg|]. intros s [[a Ha] [b Hb']]. cbn beta.
  exists a, b. do 2 (split; [easy|]).
  rewrite <- Hsnap in Ha, Hb'.
  split; [now apply resolve_registered|].
  split; [now apply resolve_registered|].
  split; [exact (reg_range _ (bi_reg _ Hinv) _ _ Ha)|].
  split; [exact (reg_range _ (bi_reg _ Hinv) _ _ Hb')|].
  rewrite <- Hsnap, accepted_true. split.
  - intros Hk ->. apply Hk. eapply (reg_inj _ (bi_reg _ Hinv)); eauto.
  - intros Hab Hk. rewrite Hk in Ha. congruence.
Qed.

(** C6: the builder, started on the cleared graph, never leaves the
    vectors. A segment is accepted when the snap keys of its endpoints
    differ; the builder registers both endpoints of every segment, and the
    two nodes they resolve to differ exactly when the segment is accepted.
    The half-edges created number twice the accepted segments, and the
    outgoing lists hold as many entries as there are half-edges. In one
    pass of the loop, a segment whose endpoints resolve to the same node
    leaves the edge array and the outgoing lists as they were, and a
    segment whose endpoints resolve to two nodes [a] and [b] appends two
    half-edges, from [a] to [b] and back, and two outgoing entries. *)
Theorem half_edges_twice_accepted atan2 segs g :
  exists g1,
    buildNodesAndEdges atan2 segs (clear g) = Returned g1 /\
    length (m_edges g1) =
      (2 * length (filter (fun s => accepted (m_snapSize g) s = true) segs))%nat /\
    Forall (fun s =>
              exists a b,
                m_nodeIndex g1 !! snapKey (m_snapSize g) (seg_a s) = Some a /\
                m_nodeIndex g1 !! snapKey (m_snapSize g) (seg_b s) = Some b /\
                resolve g1 (seg_a s) = a /\ resolve g1 (seg_b s) = b /\
                0 <= a < vec_size (m_nodes g1) /\
                0 <= b < vec_size (m_nodes g1) /\
                (accepted (m_snapSize g) s = true <-> a <> b)) segs /\
    length (m_edges g1) =
      (2 * length (filter (fun s => resolve g1 (seg_a s) <> resolve g1 (seg_b s))
                     segs))%nat /\
    total_out (m_nodes g1) = length (m_edges g1) /\
    (forall s g0,
        builder_inv g0 ->
        resolve g0 (seg_a s) =
          resolve (snd (findOrCreateNode (seg_a s) g0)) (seg_b s) ->
        exists g0',
          addSegment atan2 s g0 = Returned g0' /\
          m_edges g0' = m_edges g0 /\
          total_out (m_nodes g0') = total_out (m_nodes g0) /\
          map outgoingEdges (m_nodes g0') =
            map outgoingEdges (m_nodes g0) ++
            replicate (length (m_nodes g0') - length (m_nodes g0)) []) /\
    (forall s g0,
        builder_inv g0 ->
        resolve g0 (seg_a s) <>
          resolve (snd (findOrCreateNode (seg_a s) g0)) (seg_b s) ->
        exists g0' e1 e2,
          addSegment atan2 s g0 = Returned g0' /\
          m_edges g0' = m_edges g0 ++ [e1; e2] /\
          edge_ends e1 =
            (resolve g0 (seg_a s),
             resolve (snd (findOrCreateNode (seg_a s) g0)) (seg_b s)) /\
          edge_ends e2 =
            (resolve (snd (findOrCreateNode (seg_a s) g0)) (seg_b s),
             resolve g0 (seg_a s)) /\
          total_out (m_nodes g0') = (total_out (m_nodes g0) + 2)%nat).
Proof.
  destruct (buildNodesAndEdges_spec atan2 segs (clear g) (clear_inv g))
    as (g1 & Hb & Hinv & Hsnap & _ & _ & _ & Hlen).
  pose proof (endpoints_registered atan2 segs g g1 Hb) as Hreg.
  cbn [clear m_edges m_snapSize length] in Hlen. rewrite Nat.add_0_l in Hlen.
  exists g1. do 3 (split; [easy|]). split; [|split; [apply Hinv|split]].
  - rewrite Hlen. do 2 f_equal. apply filter_Forall_iff.
    eapply Forall_impl; [exact Hreg|].
    intros s (a & b & _ & _ & -> & -> & _ & _ & Hacc). exact Hacc.
  - intros s g0 Hinv0 Hsame.
    destruct (addSegment_shape atan2 s g0 (bi_reg _ Hinv0))
      as (a & ga & b & gb & Ea & Eb & Hcase).
    destruct (findOrCreateNode_spec _ _ _ _ Ea (bi_reg _ Hinv0))
      as (Hrega & Hka & _ & Hea & _ & Hsa & exa & Hna & Hexa).
    destruct (findOrCreateNode_spec _ _ _ _ Eb Hrega)
      as (Hregb & Hkb & Hmono & Heb & _ & _ & exb & Hnb & Hexb).
    unfold resolve in Hsame. rewrite Ea in Hsame. cbn [fst snd] in Hsame.
    rewrite Eb in Hsame. cbn [fst] in Hsame.
    destruct Hcase as [[_ Hret]|[Hab _]]; [|easy].
    exists gb. split; [easy|]. split; [congruence|].
    split; [now rewrite Hnb, Hna, !total_out_grow|].
    destruct (addSegment_spec atan2 s g0 Hinv0)
      as (g0' & Hadd & _ & _ & _ & _ & _ & _ & _ & Hdisc).
    assert (g0' = gb) as -> by congruence.
    apply Hdisc, accepted_false. rewrite Hsa in Hkb. subst b.
    eapply (reg_inj _ Hregb); eauto.
  - intros s g0 Hinv0 Hdiff.
    destruct (addSegment_shape atan2 s g0 (bi_reg _ Hinv0))
      as (a & ga & b & gb & Ea & Eb & Hcase).
    destruct (findOrCreateNode_spec _ _ _ _ Ea (bi_reg _ Hinv0))
      as (Hrega & Hka & _ & Hea & _ & Hsa & exa & Hna & Hexa).
    destruct (findOrCreateNode_spec _ _ _ _ Eb Hrega)
      as (Hregb & Hkb & Hmono & Heb & _ & _ & exb & Hnb & Hexb).
    unfold resolve in *. rewrite Ea in *. cbn [fst snd] in *.
    rewrite Eb in *. cbn [fst] in *.
    destruct Hcase as [[Hab _]|(_ & na & nb & Hva & Hvb & Hret)]; [easy|].
    do 3 eexists. split; [exact Hret|]. cbn [m_edges m_nodes].
    split; [rewrite Heb, Hea; reflexivity|]. do 2 (split; [reflexivity|]).
    apply Hmono in Hka.
    rewrite !total_out_push, Hnb, Hna, !total_out_grow by
      (rewrite ?vec_size_alter; eauto using reg_range). lia.
Qed.

Lemma half_edges_twice_accepted_witness :
  exists g1,
    buildNodesAndEdges atan2_axis square (clear newRoomGraph) = Returned g1 /\
    length (m_edges g1) = 8%nat /\
    total_out (m_nodes g1) = 8%nat.
Proof.
  destruct (half_edges_twice_accepted atan2_axis square newRoomGraph)
    as (g1 & Hb & Hlen & _ & _ & Hout & _).
  exists g1. split; [exact Hb|].
  assert (Hcount : length (filter (fun s => accepted (m_snapSize newRoomGraph) s
                                            = true) square) = 4%nat)
    by (vm_compute; reflexivity).
  rewrite Hcount in Hlen. cbn in Hlen. split; [exact Hlen|]. now rewrite Hout.
Defined.

Section BuilderClaims.

Variable atan2 : double -> double -> double.
Variable sort : (Z -> Z -> bool) -> list Z -> list Z.
Hypothesis sort_perm : forall cmp l, sort cmp l ≡ₚ l.

(** C7: [build] returns a graph in which every half-edge sits at the
    index that is its id, its twin is the other half-edge of its pair
    (ids [2k] and [2k + 1]), the twin runs between the same two nodes the
    other way, and the twin of the twin is the edge itself. The pairs are
    those of the accepted segments, in input order: the [k]-th accepted
    segment has its two half-edges at the consecutive ids [2k] and
    [2k + 1], each the twin of the other, the first from the node its
    endpoint [a] is registered at to the node of its endpoint [b], the
    second back; and there is no other half-edge. *)
Theorem twin_of_twin segs g :
  exists g',
    build atan2 sort segs g = Returned g' /\
    (forall i e,
        vec_at (m_edges g') i = Some e ->
        he_id e = i /\ he_twin e = pair_twin i /\
        exists t,
          vec_at (m_edges g') (he_twin e) = Some t /\
          he_id t = he_twin e /\ he_twin t = he_id e /\
          he_from t = he_to e /\ he_to t = he_from e) /\
    (forall (k : nat) s,
        filter (fun s => accepted (m_snapSize g) s = true) segs !! k = Some s ->
        exists e1 e2,
          vec_at (m_edges g') (2 * Z.of_nat k) = Some e1 /\
          vec_at (m_edges g') (2 * Z.of_nat k + 1) = Some e2 /\
          he_id e1 = 2 * Z.of_nat k /\ he_id e2 = he_id e1 + 1 /\
          he_twin e1 = he_id e2 /\ he_twin e2 = he_id e1 /\
          m_nodeIndex g' !! snapKey (m_snapSize g) (seg_a s)
            = Some (he_from e1) /\
          m_nodeIndex g' !! snapKey (m_snapSize g) (seg_b s)
            = Some (he_to e1) /\
          he_from e2 = he_to e1 /\ he_to e2 = he_from e1 /\
          he_from e1 <> he_to e1) /\
    length (m_edges g') =
      (2 * length (filter (fun s => accepted (m_snapSize g) s = true) segs))%nat.
Proof.
  destruct (build_core atan2 sort sort_perm segs g)
    as (g1 & g' & Hg1 & Hb & Hn & Hi & Hs & He).
  destruct (buildNodesAndEdges_clear_follow atan2 segs g)
    as (g1' & Hg1' & Hinv & Hnwf & [Hends _] & Hs1).
  assert (g1' = g1) as -> by congruence.
  destruct (buildNodesAndEdges_spec atan2 segs (clear g) (clear_inv g))
    as (g1' & Hg1'' & _ & _ & _ & _ & _ & Hlen).
  assert (g1' = g1) as -> by congruence.
  cbn [clear m_edges m_snapSize length] in Hlen. rewrite Nat.add_0_l in Hlen.
  destruct (build_edges_wf atan2 sort sort_perm segs g)
    as (g'' & Hb' & [Hev Hed Htw _ _]).
  assert (g'' = g') as -> by congruence.
  assert (Hsize : length (m_edges g') = length (m_edges g1)).
  { apply (f_equal length) in He. now rewrite !length_fmap in He. }
  exists g'. split; [easy|]. split; [|split; [|congruence]].
  - intros i e Hie.
    destruct (Hed i e Hie) as (Hid & Htwin & _).
    do 2 (split; [easy|]).
    pose proof (vec_at_range _ _ _ Hie) as Hr.
    destruct (vec_at_is_Some (m_edges g') _ (pair_twin_range _ _ Hev Hr))
      as [t Ht].
    destruct (Hed _ t Ht) as (Hidt & Htwint & _).
    destruct (Htw i e t Hie Ht) as [Hf Hto].
    exists t. rewrite Htwin, Hidt, Htwint, Hid, pair_twin_invol. easy.
  - intros k s Hk.
    pose proof (lookup_lt_Some _ _ _ Hk) as Hklt.
    assert (Hin : s ∈ segs).
    { apply list_elem_of_lookup_2 in Hk.
      now apply list_elem_of_filter in Hk as [_ Hk]. }
    destruct (endpoints_elem _ _ Hin) as [Hpa Hpb].
    destruct (nwf_reg _ _ Hnwf _ Hpa) as [a Ha].
    destruct (nwf_reg _ _ Hnwf _ Hpb) as [b Hb0].
    rewrite Hs1 in Hends.
    destruct (bind_pair_lookup
                (fun s => (resolve g1 (seg_a s), resolve g1 (seg_b s)))
                (fun s => (resolve g1 (seg_b s), resolve g1 (seg_a s)))
                _ k s Hk) as [H1 H2].
    change (fun y => [(resolve g1 (seg_a y), resolve g1 (seg_b y));
                      (resolve g1 (seg_b y), resolve g1 (seg_a y))])
      with (segment_edges g1) in H1, H2.
    rewrite <- Hends in H1, H2.
    rewrite (resolve_registered _ _ _ Ha), (resolve_registered _ _ _ Hb0)
      in H1, H2.
    assert (Hr1 : 0 <= 2 * Z.of_nat k < vec_size (m_edges g'))
      by (unfold vec_size; lia).
    assert (Hr2 : 0 <= 2 * Z.of_nat k + 1 < vec_size (m_edges g'))
      by (unfold vec_size; lia).
    destruct (vec_at_is_Some _ _ Hr1) as [e1 He1].
    destruct (vec_at_is_Some _ _ Hr2) as [e2 He2].
    destruct (edge_core_lookup _ _ _ _ He He1) as (c1 & Hc1 & Hcore1).
    destruct (edge_core_lookup _ _ _ _ He He2) as (c2 & Hc2 & Hcore2).
    apply vec_at_Some in Hc1 as [_ Hc1]. apply vec_at_Some in Hc2 as [_ Hc2].
    replace (Z.to_nat (2 * Z.of_nat k)) with (2 * k)%nat in Hc1 by lia.
    replace (Z.to_nat (2 * Z.of_nat k + 1)) with (2 * k + 1)%nat in Hc2 by lia.
    rewrite list_lookup_fmap, Hc1 in H1. rewrite list_lookup_fmap, Hc2 in H2.
    cbn in H1, H2. unfold edge_ends in H1, H2.
    inversion H1 as [[Hf1 Ht1]]. inversion H2 as [[Hf2 Ht2]].
    unfold edge_core in Hcore1, Hcore2.
    pose proof (f_equal (fun c : Z * Z * Z * Z * double => c.1.1.1.2) Hcore1)
      as Hfr1.
    pose proof (f_equal (fun c : Z * Z * Z * Z * double => c.1.1.2) Hcore1)
      as Hto1.
    pose proof (f_equal (fun c : Z * Z * Z * Z * double => c.1.1.1.2) Hcore2)
      as Hfr2.
    pose proof (f_equal (fun c : Z * Z * Z * Z * double => c.1.1.2) Hcore2)
      as Hto2.
    cbn in Hfr1, Hto1, Hfr2, Hto2.
    destruct (Hed _ _ He1) as (Hid1 & Htwin1 & _ & _ & Hne1).
    destruct (Hed _ _ He2) as (Hid2 & Htwin2 & _).
    assert (Hev2 : Z.even (2 * Z.of_nat k) = true)
      by (rewrite Z.even_mul; reflexivity).
    rewrite (pair_twin_even _ Hev2) in Htwin1.
    rewrite (pair_twin_succ_even _ Hev2) in Htwin2.
    exists e1, e2. do 2 (split; [easy|]).
    split; [easy|]. split; [lia|]. split; [lia|]. split; [lia|].
    rewrite Hi, <- Hs1, Hfr1, Hto1, Hfr2, Hto2, Hf1, Ht1, Hf2, Ht2.
    rewrite Hfr1, Hto1, Hf1, Ht1 in Hne1. auto 10.
Qed.

End BuilderClaims.

Lemma twin_of_twin_witness :
  exists g' e1 e2,
    build atan2_axis insertion_sort square newRoomGraph = Returned g' /\
    vec_at (m_edges g') 0 = Some e1 /\ vec_at (m_edges g') 1 = Some e2 /\
    he_id e1 = 0 /\ he_id e2 = 1 /\ he_twin e1 = 1 /\ he_twin e2 = 0 /\
    he_from e2 = he_to e1 /\ he_to e2 = he_from e1 /\
    length (m_edges g') = 8%nat.
Proof.
  destruct (twin_of_twin atan2_axis insertion_sort insertion_sort_perm square
              newRoomGraph) as (g' & Hb & _ & Hpairs & Hlen).
  destruct (Hpairs 0%nat (mkSegment (pt 0 0) (pt 10 0)))
    as (e1 & e2 & He1 & He2 & Hi1 & Hi2 & Ht1 & Ht2 & _ & _ & Hf & Ht & _).
  { vm_compute. reflexivity. }
  assert (Hcount : length (filter (fun s => accepted (m_snapSize newRoomGraph) s
                                            = true) square) = 4%nat)
    by (vm_compute; reflexivity).
  rewrite Hcount in Hlen.
  exists g', e1, e2. split; [exact Hb|].
  change (2 * Z.of_nat 0) with 0 in *. change (0 + 1) with 1 in *.
  repeat split; try assumption; lia.
Defined.
